(** * A bounded blocking FIFO queue: the three queue classes of the repository

    The repository holds three copies of one class template: [safe_queue] of
    enqueue.h / enqueue.cpp, [safe_queue] of queue.cpp and [ThreadSafeQueue]
    of queue.h.  Each is a circular buffer guarded by one mutex and two
    condition variables.

    The member functions are embedded as computations of one calling thread:
    every member function holds the mutex from its first statement to its
    last, so the body runs atomically.  A wait on a condition variable whose
    predicate is false can only be ended by another thread; with a single
    caller an untimed wait therefore never returns ([Blocks]) and a timed
    wait runs into its deadline. *)

From Stdlib Require Import ZArith Lia.
From stdpp Require Import base list strings pretty.

Local Open Scope Z_scope.

(** ** [size_t] arithmetic

    [size_t] is taken as an unsigned 64-bit integer; [+] and [-] wrap. *)

Definition size_modulus : Z := 2 ^ 64.

Definition is_size_t (n : Z) : Prop := 0 <= n < size_modulus.

Definition size_add (a b : Z) : Z := (a + b) mod size_modulus.

Definition size_sub (a b : Z) : Z := (a - b) mod size_modulus.

(** ** The steady clock

    [std::chrono::milliseconds] and the readings of [std::chrono::steady_clock]
    are 64-bit signed counts; the library turns a timeout into nanoseconds
    and adds it to the reading of the clock in that type.  Signed overflow is
    taken as the wrap-around the 64-bit targets of libstdc++ give.  The clock
    is read in whole milliseconds. *)

Definition int64_wrap (n : Z) : Z := (n + 2 ^ 63) mod 2 ^ 64 - 2 ^ 63.

(** A count of milliseconds as [std::chrono::nanoseconds]. *)
Definition nanoseconds (ms : Z) : Z := int64_wrap (ms * 1000000).

(** [steady_clock::now() + timeout], the deadline of a timed wait. *)
Definition steady_deadline (now timeout : Z) : Z :=
  int64_wrap (nanoseconds now + nanoseconds timeout).

(** The milliseconds from [now] to the deadline; none when the deadline is
    not in the future. *)
Definition time_left (now timeout : Z) : Z :=
  Z.max 0 ((steady_deadline now timeout - nanoseconds now) / 1000000).

(** The reading of the clock, the timeout and the deadline are all within
    the 64-bit range of nanoseconds: nothing wraps. *)
Definition fits_steady_clock (now timeout : Z) : Prop :=
  - 2 ^ 63 <= now * 1000000 < 2 ^ 63 /\
  - 2 ^ 63 <= timeout * 1000000 < 2 ^ 63 /\
  - 2 ^ 63 <= (now + timeout) * 1000000 < 2 ^ 63.

(** ** Exceptions *)

Inductive exception : Type :=
| runtime_error (what : string).

(** ** How a wait on a condition variable ends: [std::cv_status] *)

Inductive cv_status : Type :=
| cv_no_timeout
| cv_timeout.

(** ** The calling thread

    The state seen by a call: the queue object [this], the caller's variable
    bound to the reference parameter [T& item] of the timed pop, and the
    reading [now] of the steady clock in milliseconds. *)

Section Thread.
Variables T Q : Type.

Record world : Type := World { this : Q; item : T; now : Z }.

Inductive outcome (A : Type) : Type :=
| Returns (a : A) (w : world)      (* the call returns [a] *)
| Throws (e : exception) (w : world) (* the call leaves by an exception *)
| Blocks                           (* the call never returns *)
| Undefined.                       (* undefined behaviour *)

Definition M (A : Type) : Type := world -> outcome A.

Definition ret {A} (a : A) : M A := fun w => Returns A a w.

Definition bind {A B} (m : M A) (k : A -> M B) : M B :=
  fun w =>
    match m w with
    | Returns _ a w' => k a w'
    | Throws _ e w' => Throws B e w'
    | Blocks _ => Blocks B
    | Undefined _ => Undefined B
    end.

Definition throw {A} (e : exception) : M A := fun w => Throws A e w.

Definition get : M Q := fun w => Returns Q (this w) w.

Definition put (q : Q) : M unit :=
  fun w => Returns unit tt {| this := q; item := item w; now := now w |}.

(** [item = x] for the reference parameter [item]. *)
Definition assign_item (x : T) : M unit :=
  fun w => Returns unit tt {| this := this w; item := x; now := now w |}.

(** The caller is parked for [d] milliseconds. *)
Definition park (d : Z) (w : world) : world :=
  {| this := this w; item := item w; now := now w + d |}.

(** [cv.wait(lock, pred)] is [while (!pred()) wait(lock);].  No other
    thread runs, so a false predicate stays false. *)
Definition wait (pred : Q -> bool) : M unit :=
  fun w => if pred (this w) then Returns unit tt w else Blocks unit.

(** [cv.wait_for(lock, timeout, pred)] is
    [while (!pred()) if (wait_until(lock, deadline) == timeout) return pred();
     return true;]
    with [deadline = steady_clock::now() + timeout].  No other thread
    notifies or changes the queue, so the first [wait_until] ends at the
    deadline, at once when the deadline is not in the future. *)
Definition wait_for (timeout : Z) (pred : Q -> bool) : M bool :=
  fun w =>
    if pred (this w) then Returns bool true w
    else
      let w' := park (time_left (now w) timeout) w in
      Returns bool (pred (this w')) w'.

(** The loop of [wait_for] once more, with the number of times it evaluates
    [pred].  [ends] tells how the successive waits on the condition variable
    end; with one caller a wait that ends before the deadline is a spurious
    wake-up, and the queue is as it was.  [None]: the caller is still
    parked when [ends] is used up. *)
Fixpoint wait_until_loop (ends : list cv_status) (pred : Q -> bool) (q : Q)
  : option (bool * nat) :=
  if pred q then Some (true, 1%nat)
  else
    match ends with
    | [] => None
    | cv_timeout :: _ => Some (pred q, 2%nat)
    | cv_no_timeout :: ends' =>
        match wait_until_loop ends' pred q with
        | Some (b, n) => Some (b, S n)
        | None => None
        end
    end.

(** [cv.notify_one()]: no thread is waiting. *)
Definition notify_one : M unit := ret tt.

(** [a[i]] read from an array of [length a] elements. *)
Definition load (a : list T) (i : Z) : M T :=
  fun w =>
    match a !! Z.to_nat i with
    | Some x => Returns T x w
    | None => Undefined T
    end.

(** [a[i] = x]. *)
Definition store (a : list T) (i : Z) (x : T) : M (list T) :=
  fun w =>
    if bool_decide (Z.to_nat i < length a)%nat
    then Returns (list T) (<[Z.to_nat i := x]> a) w
    else Undefined (list T).

(** [a % b] on [size_t]. *)
Definition rem (a b : Z) : M Z :=
  fun w => if b =? 0 then Undefined Z else Returns Z (a mod b) w.

(** A [const] member function whose body locks the mutex of its object.
    The lock takes the mutex by non-const reference, so the member is
    well-formed only where the mutex is declared [mutable].  [None] is a
    member that no program can call: a call of it does not compile. *)
Definition const_locking {A} (mutex_mutable : bool) (body : M A)
  : option (M A) :=
  if mutex_mutable then Some body else None.
End Thread.

Arguments World {T Q} _ _ _.
Arguments this {T Q} _.
Arguments item {T Q} _.
Arguments now {T Q} _.
Arguments Returns {T Q A} _ _.
Arguments Throws {T Q A} _ _.
Arguments Blocks {T Q A}.
Arguments Undefined {T Q A}.
Arguments ret {T Q A} _ _.
Arguments bind {T Q A B} _ _ _.
Arguments throw {T Q A} _ _.
Arguments get {T Q} _.
Arguments put {T Q} _ _.
Arguments assign_item {T Q} _ _.
Arguments park {T Q} _ _.
Arguments wait {T Q} _ _.
Arguments wait_for {T Q} _ _ _.
Arguments wait_until_loop {Q} _ _ _.
Arguments notify_one {T Q} _.
Arguments load {T Q} _ _ _.
Arguments store {T Q} _ _ _ _.
Arguments rem {T Q} _ _ _.
Arguments const_locking {T Q A} _ _.

Declare Scope thread_scope.
Delimit Scope thread_scope with thread.
Bind Scope thread_scope with M.

Notation "'do' x <- m ; k" := (bind m (fun x => k))
  (at level 10, x name, m at level 100, k at level 200) : thread_scope.

Local Open Scope thread_scope.

(** ** The public interface shared by the three classes *)

Record queue_api (T Q : Type) : Type := {
  api_new : Z -> Q;
  api_size : M T Q Z;
  api_empty : M T Q bool;
  api_full : M T Q bool;
  api_push : T -> M T Q unit;
  api_push_timeout : T -> Z -> M T Q bool;
  api_pop : M T Q T;
  api_pop_timeout : Z -> M T Q bool
}.

Arguments api_new {T Q} _ _.
Arguments api_size {T Q} _ _.
Arguments api_empty {T Q} _ _.
Arguments api_full {T Q} _ _.
Arguments api_push {T Q} _ _ _.
Arguments api_push_timeout {T Q} _ _ _ _.
Arguments api_pop {T Q} _ _.
Arguments api_pop_timeout {T Q} _ _ _.

(** ** enqueue.h / enqueue.cpp: [safe_queue] *)

Module enqueue.
Section safe_queue.
Variable T : Type.
(** The element a default-initialised array [new T[n]] holds in each slot
    (indeterminate for a scalar [T]). *)
Variable default_init : T.

Record safe_queue : Type := {
  queue_data : list T;
  maximum_capacity : Z;
  current_size : Z;
  first : Z;
  last : Z
}.

Definition set_queue_data (d : list T) (q : safe_queue) : safe_queue :=
  {| queue_data := d; maximum_capacity := maximum_capacity q;
     current_size := current_size q; first := first q; last := last q |}.

Definition set_current_size (n : Z) (q : safe_queue) : safe_queue :=
  {| queue_data := queue_data q; maximum_capacity := maximum_capacity q;
     current_size := n; first := first q; last := last q |}.

Definition set_first (i : Z) (q : safe_queue) : safe_queue :=
  {| queue_data := queue_data q; maximum_capacity := maximum_capacity q;
     current_size := current_size q; first := i; last := last q |}.

Definition set_last (i : Z) (q : safe_queue) : safe_queue :=
  {| queue_data := queue_data q; maximum_capacity := maximum_capacity q;
     current_size := current_size q; first := first q; last := i |}.

(** [safe_queue(size_t max_capacity)] *)
Definition new (max_capacity : Z) : safe_queue :=
  {| queue_data := replicate (Z.to_nat max_capacity) default_init;
     maximum_capacity := max_capacity;
     current_size := 0; first := 0; last := 0 |}.

Definition size : M T safe_queue Z :=
  do q <- get;
  ret (current_size q).

Definition empty : M T safe_queue bool :=
  do q <- get;
  ret (current_size q =? 0).

Definition full : M T safe_queue bool :=
  do q <- get;
  ret (current_size q =? maximum_capacity q).

Definition push (x : T) : M T safe_queue unit :=
  do _ <- wait (fun q => current_size q <? maximum_capacity q);
  do q <- get;
  do d <- store (queue_data q) (last q) x;
  do _ <- put (set_queue_data d q);
  do q <- get;
  do r <- rem (size_add (last q) 1) (maximum_capacity q);
  do _ <- put (set_last r q);
  do q <- get;
  do _ <- put (set_current_size (size_add (current_size q) 1) q);
  do _ <- notify_one;
  ret tt.

Definition push_timeout (x : T) (timeout : Z) : M T safe_queue bool :=
  do ok <- wait_for timeout (fun q => current_size q <? maximum_capacity q);
  if negb ok then throw (runtime_error "Push timeout - queue is full")
  else
    do q <- get;
    do d <- store (queue_data q) (last q) x;
    do _ <- put (set_queue_data d q);
    do q <- get;
    do r <- rem (size_add (last q) 1) (maximum_capacity q);
    do _ <- put (set_last r q);
    do q <- get;
    do _ <- put (set_current_size (size_add (current_size q) 1) q);
    do _ <- notify_one;
    ret true.

Definition pop : M T safe_queue T :=
  do _ <- wait (fun q => 0 <? current_size q);
  do q <- get;
  do x <- load (queue_data q) (first q);
  do r <- rem (size_add (first q) 1) (maximum_capacity q);
  do _ <- put (set_first r q);
  do q <- get;
  do _ <- put (set_current_size (size_sub (current_size q) 1) q);
  do _ <- notify_one;
  ret x.

Definition pop_timeout (timeout : Z) : M T safe_queue bool :=
  do ok <- wait_for timeout (fun q => 0 <? current_size q);
  if negb ok then throw (runtime_error "Pop timeout - queue is empty")
  else
    do q <- get;
    do x <- load (queue_data q) (first q);
    do _ <- assign_item x;
    do r <- rem (size_add (first q) 1) (maximum_capacity q);
    do _ <- put (set_first r q);
    do q <- get;
    do _ <- put (set_current_size (size_sub (current_size q) 1) q);
    do _ <- notify_one;
    ret true.

Definition api : queue_api T safe_queue := {|
  api_new := new;
  api_size := size;
  api_empty := empty;
  api_full := full;
  api_push := push;
  api_push_timeout := push_timeout;
  api_pop := pop;
  api_pop_timeout := pop_timeout
|}.
End safe_queue.
End enqueue.

Arguments enqueue.queue_data {T} _.
Arguments enqueue.maximum_capacity {T} _.
Arguments enqueue.current_size {T} _.
Arguments enqueue.first {T} _.
Arguments enqueue.last {T} _.


(** ** queue.cpp: [safe_queue]

    The class of enqueue.h once more, under other member names, but for its
    mutex, which is not [mutable]: its three [const] members cannot be
    called. *)

Module queue_cpp.
Section safe_queue.
Variable T : Type.
Variable default_init : T.

Record safe_queue : Type := {
  queue_size : list T;
  maximum_capacity : Z;
  enqueue_element : Z;
  first : Z;
  last : Z
}.

Definition set_queue_size (d : list T) (q : safe_queue) : safe_queue :=
  {| queue_size := d; maximum_capacity := maximum_capacity q;
     enqueue_element := enqueue_element q; first := first q; last := last q |}.

Definition set_enqueue_element (n : Z) (q : safe_queue) : safe_queue :=
  {| queue_size := queue_size q; maximum_capacity := maximum_capacity q;
     enqueue_element := n; first := first q; last := last q |}.

Definition set_first (i : Z) (q : safe_queue) : safe_queue :=
  {| queue_size := queue_size q; maximum_capacity := maximum_capacity q;
     enqueue_element := enqueue_element q; first := i; last := last q |}.

Definition set_last (i : Z) (q : safe_queue) : safe_queue :=
  {| queue_size := queue_size q; maximum_capacity := maximum_capacity q;
     enqueue_element := enqueue_element q; first := first q; last := i |}.

(** [safe_queue(size_t max_maximum_capacity)] *)
Definition new (max_maximum_capacity : Z) : safe_queue :=
  {| queue_size := replicate (Z.to_nat max_maximum_capacity) default_init;
     maximum_capacity := max_maximum_capacity;
     enqueue_element := 0; first := 0; last := 0 |}.

(** [std::mutex mutex_sync;] is declared without [mutable] (line 14),
    unlike the mutex of the other two classes. *)
Definition mutex_sync_mutable : bool := false.

(** [size_t size() const] *)
Definition size : option (M T safe_queue Z) :=
  const_locking mutex_sync_mutable
    (do q <- get;
     ret (enqueue_element q)).

(** [bool empty() const] *)
Definition empty : option (M T safe_queue bool) :=
  const_locking mutex_sync_mutable
    (do q <- get;
     ret (enqueue_element q =? 0)).

(** [bool full() const] *)
Definition full : option (M T safe_queue bool) :=
  const_locking mutex_sync_mutable
    (do q <- get;
     ret (enqueue_element q =? maximum_capacity q)).

Definition push (x : T) : M T safe_queue unit :=
  do _ <- wait (fun q => enqueue_element q <? maximum_capacity q);
  do q <- get;
  do d <- store (queue_size q) (last q) x;
  do _ <- put (set_queue_size d q);
  do q <- get;
  do r <- rem (size_add (last q) 1) (maximum_capacity q);
  do _ <- put (set_last r q);
  do q <- get;
  do _ <- put (set_enqueue_element (size_add (enqueue_element q) 1) q);
  do _ <- notify_one;
  ret tt.

Definition push_timeout (x : T) (timeout : Z) : M T safe_queue bool :=
  do ok <- wait_for timeout (fun q => enqueue_element q <? maximum_capacity q);
  if negb ok then throw (runtime_error "Push timeout - queue is full")
  else
    do q <- get;
    do d <- store (queue_size q) (last q) x;
    do _ <- put (set_queue_size d q);
    do q <- get;
    do r <- rem (size_add (last q) 1) (maximum_capacity q);
    do _ <- put (set_last r q);
    do q <- get;
    do _ <- put (set_enqueue_element (size_add (enqueue_element q) 1) q);
    do _ <- notify_one;
    ret true.

Definition pop : M T safe_queue T :=
  do _ <- wait (fun q => 0 <? enqueue_element q);
  do q <- get;
  do x <- load (queue_size q) (first q);
  do r <- rem (size_add (first q) 1) (maximum_capacity q);
  do _ <- put (set_first r q);
  do q <- get;
  do _ <- put (set_enqueue_element (size_sub (enqueue_element q) 1) q);
  do _ <- notify_one;
  ret x.

Definition pop_timeout (timeout : Z) : M T safe_queue bool :=
  do ok <- wait_for timeout (fun q => 0 <? enqueue_element q);
  if negb ok then throw (runtime_error "Pop timeout - queue is empty")
  else
    do q <- get;
    do x <- load (queue_size q) (first q);
    do _ <- assign_item x;
    do r <- rem (size_add (first q) 1) (maximum_capacity q);
    do _ <- put (set_first r q);
    do q <- get;
    do _ <- put (set_enqueue_element (size_sub (enqueue_element q) 1) q);
    do _ <- notify_one;
    ret true.

End safe_queue.
End queue_cpp.

Arguments queue_cpp.queue_size {T} _.
Arguments queue_cpp.maximum_capacity {T} _.
Arguments queue_cpp.enqueue_element {T} _.
Arguments queue_cpp.first {T} _.
Arguments queue_cpp.last {T} _.

(** ** queue.h: [ThreadSafeQueue] *)

Module queue_h.
Section ThreadSafeQueue.
Variable T : Type.
(** The element of a value-initialised array [std::make_unique<T[]>(n)]. *)
Variable value_init : T.

Record ThreadSafeQueue : Type := {
  buffer : list T;
  capacity : Z;
  count : Z;
  front : Z;
  rear : Z
}.

Definition set_buffer (d : list T) (q : ThreadSafeQueue) : ThreadSafeQueue :=
  {| buffer := d; capacity := capacity q; count := count q;
     front := front q; rear := rear q |}.

Definition set_count (n : Z) (q : ThreadSafeQueue) : ThreadSafeQueue :=
  {| buffer := buffer q; capacity := capacity q; count := n;
     front := front q; rear := rear q |}.

Definition set_front (i : Z) (q : ThreadSafeQueue) : ThreadSafeQueue :=
  {| buffer := buffer q; capacity := capacity q; count := count q;
     front := i; rear := rear q |}.

Definition set_rear (i : Z) (q : ThreadSafeQueue) : ThreadSafeQueue :=
  {| buffer := buffer q; capacity := capacity q; count := count q;
     front := front q; rear := i |}.

(** [ThreadSafeQueue(size_t max_capacity)]; [count], [front] and [rear]
    take their default member initialiser [0]. *)
Definition new (max_capacity : Z) : ThreadSafeQueue :=
  {| buffer := replicate (Z.to_nat max_capacity) value_init;
     capacity := max_capacity;
     count := 0; front := 0; rear := 0 |}.

Definition size : M T ThreadSafeQueue Z :=
  do q <- get;
  ret (count q).

Definition empty : M T ThreadSafeQueue bool :=
  do q <- get;
  ret (count q =? 0).

Definition full : M T ThreadSafeQueue bool :=
  do q <- get;
  ret (count q =? capacity q).

Definition push (x : T) : M T ThreadSafeQueue unit :=
  do _ <- wait (fun q => count q <? capacity q);
  do q <- get;
  do d <- store (buffer q) (rear q) x;
  do _ <- put (set_buffer d q);
  do q <- get;
  do r <- rem (size_add (rear q) 1) (capacity q);
  do _ <- put (set_rear r q);
  do q <- get;
  do _ <- put (set_count (size_add (count q) 1) q);
  do _ <- notify_one;
  ret tt.

Definition push_timeout (x : T) (timeout : Z) : M T ThreadSafeQueue bool :=
  do ok <- wait_for timeout (fun q => count q <? capacity q);
  if negb ok then throw (runtime_error "Push timeout - queue is full")
  else
    do q <- get;
    do d <- store (buffer q) (rear q) x;
    do _ <- put (set_buffer d q);
    do q <- get;
    do r <- rem (size_add (rear q) 1) (capacity q);
    do _ <- put (set_rear r q);
    do q <- get;
    do _ <- put (set_count (size_add (count q) 1) q);
    do _ <- notify_one;
    ret true.

Definition pop : M T ThreadSafeQueue T :=
  do _ <- wait (fun q => 0 <? count q);
  do q <- get;
  do x <- load (buffer q) (front q);
  do r <- rem (size_add (front q) 1) (capacity q);
  do _ <- put (set_front r q);
  do q <- get;
  do _ <- put (set_count (size_sub (count q) 1) q);
  do _ <- notify_one;
  ret x.

Definition pop_timeout (timeout : Z) : M T ThreadSafeQueue bool :=
  do ok <- wait_for timeout (fun q => 0 <? count q);
  if negb ok then throw (runtime_error "Pop timeout - queue is empty")
  else
    do q <- get;
    do x <- load (buffer q) (front q);
    do _ <- assign_item x;
    do r <- rem (size_add (front q) 1) (capacity q);
    do _ <- put (set_front r q);
    do q <- get;
    do _ <- put (set_count (size_sub (count q) 1) q);
    do _ <- notify_one;
    ret true.

Definition api : queue_api T ThreadSafeQueue := {|
  api_new := new;
  api_size := size;
  api_empty := empty;
  api_full := full;
  api_push := push;
  api_push_timeout := push_timeout;
  api_pop := pop;
  api_pop_timeout := pop_timeout
|}.
End ThreadSafeQueue.
End queue_h.

Arguments queue_h.buffer {T} _.
Arguments queue_h.capacity {T} _.
Arguments queue_h.count {T} _.
Arguments queue_h.front {T} _.
Arguments queue_h.rear {T} _.

(** ** Sequences of calls made by one thread *)

Section Calls.
Variables T Q : Type.

Inductive call : Type :=
| call_size
| call_empty
| call_full
| call_push (x : T)
| call_push_timeout (x : T) (timeout : Z)
| call_pop
| call_pop_timeout (timeout : Z).

Inductive value : Type :=
| VSize (n : Z)
| VBool (b : bool)
| VVoid
| VItem (x : T).

Variable api : queue_api T Q.

Definition exec (c : call) : M T Q value :=
  match c with
  | call_size => do n <- api_size api; ret (VSize n)
  | call_empty => do b <- api_empty api; ret (VBool b)
  | call_full => do b <- api_full api; ret (VBool b)
  | call_push x => do _ <- api_push api x; ret VVoid
  | call_push_timeout x timeout =>
      do b <- api_push_timeout api x timeout; ret (VBool b)
  | call_pop => do x <- api_pop api; ret (VItem x)
  | call_pop_timeout timeout =>
      do b <- api_pop_timeout api timeout; ret (VBool b)
  end.

(** The calls are made one after the other; a call that throws is caught
    by the caller, who goes on.  The run ends at the first call that does
    not come back.  The result is the log of the calls made and the state
    the thread is left in. *)
Fixpoint run (cs : list call) (w : world T Q)
  : list (call * outcome T Q value) * world T Q :=
  match cs with
  | [] => ([], w)
  | c :: cs' =>
      match exec c w with
      | Returns v w' =>
          let (log, w'') := run cs' w' in ((c, Returns v w') :: log, w'')
      | Throws e w' =>
          let (log, w'') := run cs' w' in ((c, Throws e w') :: log, w'')
      | Blocks => ([(c, Blocks)], w)
      | Undefined => ([(c, Undefined)], w)
      end
  end.

(** The state a call leaves behind when it comes back. *)
Definition state_after {A} (o : outcome T Q A) : option (world T Q) :=
  match o with
  | Returns _ w' | Throws _ w' => Some w'
  | Blocks | Undefined => None
  end.

(** The states one thread can bring a queue of capacity [c] into. *)
Inductive reachable (c : Z) : world T Q -> Prop :=
| reachable_new it t :
    is_size_t c -> reachable c (World (api_new api c) it t)
| reachable_call w k w' :
    reachable c w -> state_after (exec k w) = Some w' -> reachable c w'.

(** The item handed over by a push that came back. *)
Definition pushed_item (e : call * outcome T Q value) : option T :=
  match e with
  | (call_push x, Returns _ _) => Some x
  | (call_push_timeout x _, Returns _ _) => Some x
  | _ => None
  end.

(** The item received from a pop that came back: the return value of
    [pop()], the variable written by the timed pop. *)
Definition popped_item (e : call * outcome T Q value) : option T :=
  match e with
  | (call_pop, Returns (VItem x) _) => Some x
  | (call_pop_timeout _, Returns _ w') => Some (item w')
  | _ => None
  end.

Definition pushes (log : list (call * outcome T Q value)) : list T :=
  omap pushed_item log.

Definition pops (log : list (call * outcome T Q value)) : list T :=
  omap popped_item log.

Definition is_push (c : call) : bool :=
  match c with
  | call_push _ | call_push_timeout _ _ => true
  | _ => false
  end.

Definition returned {A} (o : outcome T Q A) : bool :=
  match o with
  | Returns _ _ => true
  | _ => false
  end.

(** What the caller observes of a call: how it ended, with which value,
    the variable [item] and the clock. *)
Inductive observation : Type :=
| Returned (v : value) (it : T) (t : Z)
| Thrown (e : exception) (it : T) (t : Z)
| Blocked
| Crashed.

Definition observe (o : outcome T Q value) : observation :=
  match o with
  | Returns v w => Returned v (item w) (now w)
  | Throws e w => Thrown e (item w) (now w)
  | Blocks => Blocked
  | Undefined => Crashed
  end.

Definition observations (log : list (call * outcome T Q value))
  : list observation :=
  map (fun e => observe e.2) log.
End Calls.

Arguments call_size {T}.
Arguments call_empty {T}.
Arguments call_full {T}.
Arguments call_push {T} _.
Arguments call_push_timeout {T} _ _.
Arguments call_pop {T}.
Arguments call_pop_timeout {T} _.
Arguments VSize {T} _.
Arguments VBool {T} _.
Arguments VVoid {T}.
Arguments VItem {T} _.
Arguments exec {T Q} _ _ _.
Arguments run {T Q} _ _ _.
Arguments state_after {T Q A} _.
Arguments reachable {T Q} _ _ _.
Arguments pushed_item {T Q} _.
Arguments popped_item {T Q} _.
Arguments Returned {T} _ _ _.
Arguments Thrown {T} _ _ _.
Arguments Blocked {T}.
Arguments Crashed {T}.
Arguments observe {T Q} _.
Arguments pushes {T Q} _.
Arguments pops {T Q} _.
Arguments is_push {T} _.
Arguments returned {T Q A} _.
Arguments observations {T Q} _.

(** ** Calls of a class some of whose members cannot be called *)

Section Partial_calls.
Variables T Q : Type.

Definition is_query (c : call T) : bool :=
  match c with
  | call_size | call_empty | call_full => true
  | _ => false
  end.

(** The computation a call stands for, where the member can be called. *)
Variable member : call T -> option (M T Q (value T)).

(** A program is compiled before it runs: it exists only if every call in
    it is a call of a member that can be called. *)
Definition compiles (cs : list (call T)) : bool :=
  forallb (fun c => match member c with Some _ => true | None => false end) cs.

(** The calls made one after the other, as in [run]. *)
Fixpoint run_members (cs : list (call T)) (w : world T Q)
  : option (list (call T * outcome T Q (value T)) * world T Q) :=
  match cs with
  | [] => Some ([], w)
  | c :: cs' =>
      match member c with
      | None => None
      | Some m =>
          match m w with
          | Returns v w' =>
              match run_members cs' w' with
              | Some (log, w'') => Some ((c, Returns v w') :: log, w'')
              | None => None
              end
          | Throws e w' =>
              match run_members cs' w' with
              | Some (log, w'') => Some ((c, Throws e w') :: log, w'')
              | None => None
              end
          | Blocks => Some ([(c, Blocks)], w)
          | Undefined => Some ([(c, Undefined)], w)
          end
      end
  end.

Definition run_program (cs : list (call T)) (w : world T Q)
  : option (list (call T * outcome T Q (value T)) * world T Q) :=
  if compiles cs then run_members cs w else None.
End Partial_calls.

Arguments is_query {T} _.
Arguments compiles {T Q} _ _.
Arguments run_members {T Q} _ _ _.
Arguments run_program {T Q} _ _ _.

(** The calls of [safe_queue] of queue.cpp. *)
Definition queue_cpp_call {T} (c : call T)
  : option (M T (queue_cpp.safe_queue T) (value T)) :=
  match c with
  | call_size =>
      match queue_cpp.size T with
      | Some m => Some (do n <- m; ret (VSize n))
      | None => None
      end
  | call_empty =>
      match queue_cpp.empty T with
      | Some m => Some (do b <- m; ret (VBool b))
      | None => None
      end
  | call_full =>
      match queue_cpp.full T with
      | Some m => Some (do b <- m; ret (VBool b))
      | None => None
      end
  | call_push x => Some (do _ <- queue_cpp.push T x; ret VVoid)
  | call_push_timeout x timeout =>
      Some (do b <- queue_cpp.push_timeout T x timeout; ret (VBool b))
  | call_pop => Some (do x <- queue_cpp.pop T; ret (VItem x))
  | call_pop_timeout timeout =>
      Some (do b <- queue_cpp.pop_timeout T timeout; ret (VBool b))
  end.

(** ** The error conditions of the timed calls *)

Definition PushTimeout : exception :=
  runtime_error "Push timeout - queue is full".

Definition PopTimeout : exception :=
  runtime_error "Pop timeout - queue is empty".

(** ** Representation of [enqueue.safe_queue] *)

Section Representation.
Context {T : Type}.
Implicit Types q : enqueue.safe_queue T.

Import enqueue.

(** The state invariant: the buffer has [maximum_capacity] slots, the
    count lies in [[0, capacity]], the cursors lie in [[0, capacity)] and
    the count is congruent to [last - first] modulo the capacity. *)
Record invariant q : Prop := {
  inv_capacity : is_size_t (maximum_capacity q);
  inv_data : Z.of_nat (length (queue_data q)) = maximum_capacity q;
  inv_size : 0 <= current_size q <= maximum_capacity q;
  inv_first :
    0 < maximum_capacity q -> 0 <= first q < maximum_capacity q;
  inv_last :
    0 < maximum_capacity q -> 0 <= last q < maximum_capacity q;
  inv_count :
    0 < maximum_capacity q ->
    current_size q mod maximum_capacity q
    = (last q - first q) mod maximum_capacity q
}.

(** The same with the count EQUAL to [(last - first) mod capacity]. *)
Definition invariant_with_equation q : Prop :=
  0 <= current_size q <= maximum_capacity q /\
  (0 < maximum_capacity q ->
     0 <= first q < maximum_capacity q /\
     0 <= last q < maximum_capacity q /\
     current_size q = (last q - first q) mod maximum_capacity q).

(** A cursor after a call: where it was, or one step further round. *)
Definition same_or_next (capacity i i' : Z) : Prop :=
  i' = i \/ i' = (i + 1) mod capacity.

(** The live items, oldest first: the [current_size] slots from [first]
    on, wrapping round the end of the buffer. *)
Definition contents q : list T :=
  take (Z.to_nat (current_size q))
       (rotate (Z.to_nat (first q)) (queue_data q)).

(** The queue after the statements that follow the wait of a push. *)
Definition enqueued (x : T) q : safe_queue T :=
  {| queue_data := <[Z.to_nat (last q) := x]> (queue_data q);
     maximum_capacity := maximum_capacity q;
     current_size := current_size q + 1;
     first := first q;
     last := (last q + 1) mod maximum_capacity q |}.

(** The queue after the statements that follow the wait of a pop. *)
Definition dequeued q : safe_queue T :=
  {| queue_data := queue_data q;
     maximum_capacity := maximum_capacity q;
     current_size := current_size q - 1;
     first := (first q + 1) mod maximum_capacity q;
     last := last q |}.

(** What the interface lets a caller tell of a queue. *)
Definition abstract q : Z * Z * Z * Z * list T :=
  (maximum_capacity q, current_size q, first q, last q, contents q).

(** What a caller can tell of the state: the queue through its interface,
    the variable [item] and the clock. *)
Definition look (w : world T (safe_queue T))
  : Z * Z * Z * Z * list T * T * Z :=
  (abstract (this w), item w, now w).

(** What each call does from a state that satisfies the invariant. *)
Inductive step :
  call T -> world T (safe_queue T) -> outcome T (safe_queue T) (value T) -> Prop :=
| step_size w :
    step call_size w (Returns (VSize (current_size (this w))) w)
| step_empty w :
    step call_empty w (Returns (VBool (current_size (this w) =? 0)) w)
| step_full w :
    step call_full w
      (Returns (VBool (current_size (this w) =? maximum_capacity (this w))) w)
| step_push x w :
    current_size (this w) < maximum_capacity (this w) ->
    step (call_push x) w
      (Returns VVoid (World (enqueued x (this w)) (item w) (now w)))
| step_push_blocks x w :
    maximum_capacity (this w) <= current_size (this w) ->
    step (call_push x) w Blocks
| step_push_timeout x timeout w :
    current_size (this w) < maximum_capacity (this w) ->
    step (call_push_timeout x timeout) w
      (Returns (VBool true) (World (enqueued x (this w)) (item w) (now w)))
| step_push_timeout_throws x timeout w :
    maximum_capacity (this w) <= current_size (this w) ->
    step (call_push_timeout x timeout) w
      (Throws PushTimeout (park (time_left (now w) timeout) w))
| step_pop x w :
    0 < current_size (this w) ->
    queue_data (this w) !! Z.to_nat (first (this w)) = Some x ->
    step call_pop w
      (Returns (VItem x) (World (dequeued (this w)) (item w) (now w)))
| step_pop_blocks w :
    current_size (this w) <= 0 ->
    step call_pop w Blocks
| step_pop_timeout x timeout w :
    0 < current_size (this w) ->
    queue_data (this w) !! Z.to_nat (first (this w)) = Some x ->
    step (call_pop_timeout timeout) w
      (Returns (VBool true) (World (dequeued (this w)) x (now w)))
| step_pop_timeout_throws timeout w :
    current_size (this w) <= 0 ->
    step (call_pop_timeout timeout) w
      (Throws PopTimeout (park (time_left (now w) timeout) w)).
End Representation.

(** ** The other two classes seen as [enqueue.safe_queue] *)

Section Renaming.
Context {T : Type}.

(** Member by member: [queue_size], [enqueue_element] of queue.cpp are
    [queue_data], [current_size] of enqueue.h. *)
Definition of_queue_cpp (q : queue_cpp.safe_queue T) : enqueue.safe_queue T :=
  {| enqueue.queue_data := queue_cpp.queue_size q;
     enqueue.maximum_capacity := queue_cpp.maximum_capacity q;
     enqueue.current_size := queue_cpp.enqueue_element q;
     enqueue.first := queue_cpp.first q;
     enqueue.last := queue_cpp.last q |}.

(** Member by member: [buffer], [capacity], [count], [front], [rear] of
    queue.h are [queue_data], [maximum_capacity], [current_size], [first],
    [last] of enqueue.h. *)
Definition of_queue_h (q : queue_h.ThreadSafeQueue T) : enqueue.safe_queue T :=
  {| enqueue.queue_data := queue_h.buffer q;
     enqueue.maximum_capacity := queue_h.capacity q;
     enqueue.current_size := queue_h.count q;
     enqueue.first := queue_h.front q;
     enqueue.last := queue_h.rear q |}.

Definition abstract_cpp (q : queue_cpp.safe_queue T)
  : Z * Z * Z * Z * list T :=
  (queue_cpp.maximum_capacity q, queue_cpp.enqueue_element q,
   queue_cpp.first q, queue_cpp.last q,
   take (Z.to_nat (queue_cpp.enqueue_element q))
        (rotate (Z.to_nat (queue_cpp.first q)) (queue_cpp.queue_size q))).

Definition abstract_h (q : queue_h.ThreadSafeQueue T)
  : Z * Z * Z * Z * list T :=
  (queue_h.capacity q, queue_h.count q, queue_h.front q, queue_h.rear q,
   take (Z.to_nat (queue_h.count q))
        (rotate (Z.to_nat (queue_h.front q)) (queue_h.buffer q))).

Definition world_map {Q Q'} (f : Q -> Q') (w : world T Q) : world T Q' :=
  {| this := f (this w); item := item w; now := now w |}.

Definition outcome_map {Q Q' A} (f : Q -> Q') (o : outcome T Q A)
  : outcome T Q' A :=
  match o with
  | Returns a w => Returns a (world_map f w)
  | Throws e w => Throws e (world_map f w)
  | Blocks => Blocks
  | Undefined => Undefined
  end.
End Renaming.

(** An entry of the log of a run, its state seen through [f]. *)
Definition renamed_entry {T Q Q'} (f : Q -> Q')
    (e : call T * outcome T Q (value T)) : call T * outcome T Q' (value T) :=
  (e.1, outcome_map f e.2).

(** ** main.cpp: the demo up to the start of its two threads

    What [main] writes to [std::cout] is kept as the list of its lines:
    every writing statement of [main] ends with [std::endl], and the newline
    that opens some of its string literals gives an empty line.  A statement
    ends like a call of the queue, or is still running when the fuel of a
    loop is used up ([None]). *)

Section Console.
Variables T Q : Type.

Definition P (A : Type) : Type :=
  world T Q -> list string * option (outcome T Q A).

Definition finish {A} (a : A) : P A := fun w => ([], Some (Returns a w)).

Definition on_queue {A} (m : M T Q A) : P A := fun w => ([], Some (m w)).

Definition cout_line (s : string) : P unit :=
  fun w => ([s], Some (Returns tt w)).

Definition and_then {A B} (m : P A) (k : A -> P B) : P B :=
  fun w =>
    match m w with
    | (l1, Some (Returns a w')) => let (l2, r) := k a w' in (l1 ++ l2, r)
    | (l1, Some (Throws e w')) => (l1, Some (Throws e w'))
    | (l1, Some Blocks) => (l1, Some Blocks)
    | (l1, Some Undefined) => (l1, Some Undefined)
    | (l1, None) => (l1, None)
    end.

(** [try { m } catch (const std::runtime_error& e) { handler e }] *)
Definition try_catch {A} (m : P A) (handler : exception -> P A) : P A :=
  fun w =>
    match m w with
    | (l1, Some (Throws e w')) => let (l2, r) := handler e w' in (l1 ++ l2, r)
    | r => r
    end.
End Console.

Arguments finish {T Q A} _ _.
Arguments on_queue {T Q A} _ _.
Arguments cout_line {T Q} _ _.
Arguments and_then {T Q A B} _ _ _.
Arguments try_catch {T Q A} _ _ _.

Declare Scope program_scope.
Delimit Scope program_scope with program.
Bind Scope program_scope with P.

Notation "'do' x <- m ; k" := (and_then m (fun x => k))
  (at level 10, x name, m at level 100, k at level 200) : program_scope.

Module main_cpp.

(** [e.what()] *)
Definition what (e : exception) : string :=
  match e with runtime_error s => s end.

Definition yes_no (b : bool) : string := if b then "Yes" else "No".

(** [for (int i = 1; i <= 5; ++i) { myQueue.push(i); std::cout << ... }],
    over the values [i] takes. *)
Fixpoint push_each (values : list Z) : P Z (enqueue.safe_queue Z) unit :=
  match values with
  | [] => finish tt
  | i :: rest =>
      (do _ <- on_queue (enqueue.push Z i);
       do n <- on_queue (enqueue.size Z);
       do _ <- cout_line ("Pushed: " +:+ pretty i +:+ ", Size: " +:+ pretty n);
       push_each rest)%program
  end.

(** [while (!myQueue.empty()) { int val = myQueue.pop(); std::cout << ... }];
    [fuel] bounds the number of times the condition is evaluated. *)
Fixpoint pop_while_not_empty (fuel : nat) : P Z (enqueue.safe_queue Z) unit :=
  match fuel with
  | O => fun w => ([], None)
  | S fuel' =>
      (do b <- on_queue (enqueue.empty Z);
       if negb b then
         do val <- on_queue (enqueue.pop Z);
         do n <- on_queue (enqueue.size Z);
         do _ <- cout_line ("Popped: " +:+ pretty val +:+ ", Size: " +:+ pretty n);
         pop_while_not_empty fuel'
       else finish tt)%program
  end.

(** The statements of [main] from its first to the line that announces the
    producer-consumer demo, run on [myQueue]. *)
Definition main_until_threads (fuel : nat) : P Z (enqueue.safe_queue Z) unit :=
  (do b <- on_queue (enqueue.empty Z);
   do _ <- cout_line ("Queue empty? " +:+ yes_no b);
   do n <- on_queue (enqueue.size Z);
   do _ <- cout_line ("Queue size: " +:+ pretty n);
   do _ <- cout_line "";
   do _ <- cout_line "Pushing items...";
   do _ <- push_each (seqZ 1 5);
   do b <- on_queue (enqueue.full Z);
   do _ <- cout_line "";
   do _ <- cout_line ("Queue full? " +:+ yes_no b);
   do _ <- try_catch
             (do _ <- cout_line "";
              do _ <- cout_line "Trying to push with timeout (should fail)...";
              do _ <- on_queue (enqueue.push_timeout Z 6 100);
              finish tt)
             (fun e => cout_line ("Error: " +:+ what e));
   do _ <- cout_line "";
   do _ <- cout_line "Popping items...";
   do _ <- pop_while_not_empty fuel;
   do _ <- try_catch
             (do _ <- cout_line "";
              do _ <- cout_line "Trying to pop with timeout (should fail)...";
              do _ <- on_queue (enqueue.pop_timeout Z 100);
              finish tt)
             (fun e => cout_line ("Error: " +:+ what e));
   do _ <- cout_line "";
   cout_line "Starting producer-consumer demo...")%program.

(** The lines the loop of [pop_while_not_empty] writes for a queue that
    holds [items], oldest first. *)
Fixpoint popped_lines (items : list Z) : list string :=
  match items with
  | [] => []
  | x :: rest =>
      ("Popped: " +:+ pretty x +:+ ", Size: "
         +:+ pretty (Z.of_nat (length rest)))
      :: popped_lines rest
  end.

(** What [main] has written when it announces the producer-consumer demo. *)
Definition console_before_threads : list string :=
  [ "Queue empty? Yes"; "Queue size: 0"; "";
    "Pushing items...";
    "Pushed: 1, Size: 1"; "Pushed: 2, Size: 2"; "Pushed: 3, Size: 3";
    "Pushed: 4, Size: 4"; "Pushed: 5, Size: 5"; "";
    "Queue full? Yes"; "";
    "Trying to push with timeout (should fail)...";
    "Error: Push timeout - queue is full"; "";
    "Popping items...";
    "Popped: 1, Size: 4"; "Popped: 2, Size: 3"; "Popped: 3, Size: 2";
    "Popped: 4, Size: 1"; "Popped: 5, Size: 0"; "";
    "Trying to pop with timeout (should fail)...";
    "Error: Pop timeout - queue is empty"; "";
    "Starting producer-consumer demo..." ].

End main_cpp.

(** ** Two states of queues of [int] used as examples *)

(** A queue of capacity 1 holding 7: the state after one push. *)
Definition full_single : world Z (enqueue.safe_queue Z) :=
  World (enqueue.Build_safe_queue Z [7] 1 1 0 0) 0 0.

(** A queue of capacity 2 after [push(7)] and [pop()]: empty, with both
    cursors on slot 1. *)
Definition emptied_pair : world Z (enqueue.safe_queue Z) :=
  World (enqueue.Build_safe_queue Z [7; 0] 2 0 1 1) 0 0.

(** A queue of capacity 3 after [push(7)], [push(8)] and [pop()]: it holds
    8 in slot 1 and has room for two more. *)
Definition one_of_three : world Z (enqueue.safe_queue Z) :=
  World (enqueue.Build_safe_queue Z [7; 8; 0] 3 1 1 2) 0 0.

Ltac size_t_range := unfold is_size_t, size_modulus; lia.

Ltac invariant_by_evaluation :=
  constructor; simpl; try size_t_range; try lia; intros; reflexivity.

(** ** Proof steps used more than once *)

Ltac unfold_thread :=
  unfold bind, wait, wait_for, get, put, store, load, rem, notify_one, ret,
    throw, assign_item, park, world_map.

Ltac same_code :=
  intros; unfold_thread; simpl;
  repeat (case_match; simpl in *; simplify_eq); reflexivity.

(** * Properties *)

Section Enqueue_facts.
Context {T : Type}.
Implicit Types (q : enqueue.safe_queue T) (w : world T (enqueue.safe_queue T)).

Import enqueue.

Lemma int64_wrap_small n : - 2 ^ 63 <= n < 2 ^ 63 -> int64_wrap n = n.
Proof. intros Hn. unfold int64_wrap. rewrite Z.mod_small by lia. lia. Qed.

(** Where nothing wraps, a timed wait lasts its timeout, or no time at all
    when the timeout is not positive. *)
Lemma time_left_fits now timeout :
  fits_steady_clock now timeout -> time_left now timeout = Z.max 0 timeout.
Proof.
  intros (Hnow & Htimeout & Hsum).
  unfold time_left, steady_deadline, nanoseconds.
  rewrite (int64_wrap_small (now * 1000000)) by exact Hnow.
  rewrite (int64_wrap_small (timeout * 1000000)) by exact Htimeout.
  rewrite int64_wrap_small by lia.
  replace (now * 1000000 + timeout * 1000000 - now * 1000000)
    with (timeout * 1000000) by lia.
  now rewrite Z.div_mul.
Qed.

(** However the waits end, the loop of [wait_for] returns what the
    predicate gives on the state at the call; it evaluates the predicate
    once when it holds and at least twice when it does not. *)
Lemma wait_until_loop_result {Q} ends (pred : Q -> bool) (q : Q) b n :
  wait_until_loop ends pred q = Some (b, n) ->
  b = pred q /\ if b then n = 1%nat else (2 <= n)%nat.
Proof.
  revert b n. induction ends as [|e ends IH]; intros b n H; simpl in H;
    destruct (pred q) eqn:Hpred.
  - simplify_eq. auto.
  - discriminate H.
  - simplify_eq. auto.
  - destruct e.
    + destruct (wait_until_loop ends pred q) as [[b' n']|]; simplify_eq.
      destruct (IH b n' eq_refl) as [-> Hn]. split; [reflexivity|]. lia.
    + simplify_eq. auto.
Qed.

Lemma size_add_small a : 0 <= a -> a + 1 < size_modulus -> size_add a 1 = a + 1.
Proof. intros. unfold size_add. apply Z.mod_small. lia. Qed.

Lemma size_sub_small a : 0 < a < size_modulus -> size_sub a 1 = a - 1.
Proof. intros. unfold size_sub. apply Z.mod_small. lia. Qed.

Lemma invariant_new (d : T) c : is_size_t c -> invariant (new T d c).
Proof.
  intros Hc. unfold is_size_t in Hc.
  split; simpl; try lia.
  - exact Hc.
  - rewrite length_replicate. lia.
  - intros. rewrite Z.mod_0_l by lia. reflexivity.
Qed.

Lemma push_returns x w :
  invariant (this w) ->
  current_size (this w) < maximum_capacity (this w) ->
  push T x w = Returns tt (World (enqueued x (this w)) (item w) (now w)).
Proof.
  intros [Hc Hd Hs Hf Hl Hn] Hlt. unfold is_size_t in Hc.
  unfold push, bind, wait, get, store, put, rem, notify_one, ret. simpl.
  destruct (Z.ltb_spec (current_size (this w)) (maximum_capacity (this w))); [|lia].
  rewrite bool_decide_true by lia. simpl.
  destruct (Z.eqb_spec (maximum_capacity (this w)) 0); [lia|].
  unfold enqueued, set_current_size, set_last, set_queue_data. simpl.
  rewrite !size_add_small by lia. reflexivity.
Qed.

Lemma push_blocks x w :
  maximum_capacity (this w) <= current_size (this w) ->
  push T x w = Blocks.
Proof.
  intros Hge. unfold push, bind, wait.
  destruct (Z.ltb_spec (current_size (this w)) (maximum_capacity (this w))); [lia|].
  reflexivity.
Qed.

Lemma push_timeout_returns x timeout w :
  invariant (this w) ->
  current_size (this w) < maximum_capacity (this w) ->
  push_timeout T x timeout w
  = Returns true (World (enqueued x (this w)) (item w) (now w)).
Proof.
  intros [Hc Hd Hs Hf Hl Hn] Hlt. unfold is_size_t in Hc.
  unfold push_timeout, bind, wait_for, get, store, put, rem, notify_one, ret.
  simpl.
  destruct (Z.ltb_spec (current_size (this w)) (maximum_capacity (this w))); [|lia].
  simpl. rewrite bool_decide_true by lia. simpl.
  destruct (Z.eqb_spec (maximum_capacity (this w)) 0); [lia|].
  unfold enqueued, set_current_size, set_last, set_queue_data. simpl.
  rewrite !size_add_small by lia. reflexivity.
Qed.

Lemma push_timeout_throws x timeout w :
  maximum_capacity (this w) <= current_size (this w) ->
  push_timeout T x timeout w
  = Throws PushTimeout (park (time_left (now w) timeout) w).
Proof.
  intros Hge. unfold push_timeout, bind, wait_for. simpl.
  destruct (Z.ltb_spec (current_size (this w)) (maximum_capacity (this w))); [lia|].
  reflexivity.
Qed.

Lemma first_slot_live q :
  invariant q -> 0 < current_size q ->
  is_Some (queue_data q !! Z.to_nat (first q)).
Proof.
  intros [Hc Hd Hs Hf Hl Hn] Hpos.
  apply lookup_lt_is_Some. lia.
Qed.

Lemma pop_returns w :
  invariant (this w) ->
  0 < current_size (this w) ->
  exists x,
    queue_data (this w) !! Z.to_nat (first (this w)) = Some x /\
    pop T w = Returns x (World (dequeued (this w)) (item w) (now w)).
Proof.
  intros Hinv Hpos.
  destruct (first_slot_live _ Hinv Hpos) as [x Hx].
  destruct Hinv as [Hc Hd Hs Hf Hl Hn]. unfold is_size_t in Hc.
  exists x. split; [exact Hx|].
  unfold pop, bind, wait, get, load, put, rem, notify_one, ret. simpl.
  destruct (Z.ltb_spec 0 (current_size (this w))); [|lia].
  rewrite Hx.
  destruct (Z.eqb_spec (maximum_capacity (this w)) 0); [lia|].
  unfold dequeued, set_current_size, set_first. simpl.
  rewrite size_add_small, size_sub_small by lia. reflexivity.
Qed.

Lemma pop_blocks w :
  current_size (this w) <= 0 -> pop T w = Blocks.
Proof.
  intros Hle. unfold pop, bind, wait.
  destruct (Z.ltb_spec 0 (current_size (this w))); [lia|]. reflexivity.
Qed.

Lemma pop_timeout_returns timeout w :
  invariant (this w) ->
  0 < current_size (this w) ->
  exists x,
    queue_data (this w) !! Z.to_nat (first (this w)) = Some x /\
    pop_timeout T timeout w
    = Returns true (World (dequeued (this w)) x (now w)).
Proof.
  intros Hinv Hpos.
  destruct (first_slot_live _ Hinv Hpos) as [x Hx].
  destruct Hinv as [Hc Hd Hs Hf Hl Hn]. unfold is_size_t in Hc.
  exists x. split; [exact Hx|].
  unfold pop_timeout, bind, wait_for, get, load, assign_item, put, rem,
    notify_one, ret. simpl.
  destruct (Z.ltb_spec 0 (current_size (this w))); [|lia].
  simpl. rewrite Hx. simpl.
  destruct (Z.eqb_spec (maximum_capacity (this w)) 0); [lia|].
  unfold dequeued, set_current_size, set_first. simpl.
  rewrite size_add_small, size_sub_small by lia. reflexivity.
Qed.

Lemma pop_timeout_throws timeout w :
  current_size (this w) <= 0 ->
  pop_timeout T timeout w
  = Throws PopTimeout (park (time_left (now w) timeout) w).
Proof.
  intros Hle. unfold pop_timeout, bind, wait_for. simpl.
  destruct (Z.ltb_spec 0 (current_size (this w))); [lia|]. reflexivity.
Qed.

(** *** The invariant is kept *)

Lemma invariant_enqueued x q :
  invariant q -> current_size q < maximum_capacity q ->
  invariant (enqueued x q).
Proof.
  intros [Hc Hd Hs Hf Hl Hn] Hlt.
  split; simpl; try assumption; try lia.
  - rewrite length_insert. exact Hd.
  - intros Hpos. apply Z.mod_pos_bound. exact Hpos.
  - intros Hpos. rewrite Zminus_mod_idemp_l.
    replace (last q + 1 - first q) with ((last q - first q) + 1) by lia.
    rewrite <- (Zplus_mod_idemp_l (last q - first q)).
    rewrite <- (Hn Hpos). rewrite Zplus_mod_idemp_l. reflexivity.
Qed.

Lemma invariant_dequeued q :
  invariant q -> 0 < current_size q -> invariant (dequeued q).
Proof.
  intros [Hc Hd Hs Hf Hl Hn] Hlt.
  split; simpl; try assumption; try lia.
  - intros Hpos. apply Z.mod_pos_bound. exact Hpos.
  - intros Hpos. rewrite Zminus_mod_idemp_r.
    replace (last q - (first q + 1)) with ((last q - first q) - 1) by lia.
    rewrite <- (Zminus_mod_idemp_l (last q - first q)).
    rewrite <- (Hn Hpos). rewrite Zminus_mod_idemp_l. reflexivity.
Qed.

(** The write cursor is [current_size] slots after the read cursor. *)
Lemma last_is_first_plus_size q :
  invariant q -> 0 < maximum_capacity q ->
  last q = (first q + current_size q) mod maximum_capacity q.
Proof.
  intros [Hc Hd Hs Hf Hl Hn] Hpos.
  rewrite <- (Zplus_mod_idemp_r (current_size q)), (Hn Hpos).
  rewrite Zplus_mod_idemp_r.
  replace (first q + (last q - first q)) with (last q) by lia.
  symmetry. apply Z.mod_small. auto.
Qed.

(** *** The live items *)

Lemma contents_enqueued x q :
  invariant q -> current_size q < maximum_capacity q ->
  contents (enqueued x q) = contents q ++ [x].
Proof.
  intros Hinv Hlt.
  pose proof (last_is_first_plus_size q Hinv) as Hlast.
  destruct Hinv as [Hc Hd Hs Hf Hl Hn].
  unfold contents, enqueued. simpl.
  assert (Hidx : Z.to_nat (last q)
    = rotate_nat_add (Z.to_nat (first q)) (Z.to_nat (current_size q))
        (length (queue_data q))).
  { unfold rotate_nat_add. rewrite Hd, !Z2Nat.id by lia.
    f_equal. apply Hlast. lia. }
  rewrite Hidx, rotate_insert_l by lia.
  replace (Z.to_nat (current_size q + 1)) with (S (Z.to_nat (current_size q)))
    by lia.
  rewrite (take_S_r _ _ x).
  - rewrite take_insert_ge by lia. reflexivity.
  - apply list_lookup_insert_eq. rewrite length_rotate. lia.
Qed.

Lemma contents_dequeued x q :
  invariant q -> 0 < current_size q ->
  queue_data q !! Z.to_nat (first q) = Some x ->
  contents q = x :: contents (dequeued q).
Proof.
  intros [Hc Hd Hs Hf Hl Hn] Hpos Hx.
  apply list_eq. intros k. unfold contents, dequeued. simpl.
  destruct k as [|k]; simpl.
  - rewrite lookup_take_lt, lookup_rotate_r by lia.
    unfold rotate_nat_add. rewrite Hd, Z2Nat.id, Z.add_0_r by lia.
    rewrite Z.mod_small by lia. exact Hx.
  - destruct (decide (S k < Z.to_nat (current_size q))%nat) as [Hk|Hk].
    + rewrite !lookup_take_lt, !lookup_rotate_r by lia.
      unfold rotate_nat_add. rewrite Hd, !Z2Nat.id; try lia.
      * rewrite Zplus_mod_idemp_l. do 3 f_equal. lia.
      * apply Z.mod_pos_bound. lia.
    + rewrite !lookup_take_ge by lia. reflexivity.
Qed.

(** *** Every call follows the step relation *)

Lemma exec_step (d : T) k w :
  invariant (this w) -> step k w (exec (api T d) k w).
Proof.
  intros Hinv. destruct k as [| | |x|x timeout| |timeout]; simpl.
  - constructor.
  - constructor.
  - constructor.
  - unfold bind at 1.
    destruct (Z.lt_ge_cases (current_size (this w)) (maximum_capacity (this w))).
    + rewrite push_returns by assumption. now constructor.
    + rewrite push_blocks by assumption. now constructor.
  - unfold bind at 1.
    destruct (Z.lt_ge_cases (current_size (this w)) (maximum_capacity (this w))).
    + rewrite push_timeout_returns by assumption. now constructor.
    + rewrite push_timeout_throws by assumption. now constructor.
  - unfold bind at 1.
    destruct (Z.lt_ge_cases 0 (current_size (this w))).
    + destruct (pop_returns w Hinv) as (x & Hx & ->); [assumption|].
      now constructor.
    + rewrite pop_blocks by assumption. now constructor.
  - unfold bind at 1.
    destruct (Z.lt_ge_cases 0 (current_size (this w))).
    + destruct (pop_timeout_returns timeout w Hinv) as (x & Hx & ->);
        [assumption|].
      now constructor.
    + rewrite pop_timeout_throws by assumption. now constructor.
Qed.

Lemma step_invariant k w o w' :
  step k w o -> invariant (this w) -> state_after o = Some w' ->
  invariant (this w').
Proof.
  intros Hstep Hinv Hafter.
  destruct Hstep; simpl in Hafter; simplify_eq; simpl;
    auto using invariant_enqueued, invariant_dequeued.
Qed.

Lemma step_capacity k w o w' :
  step k w o -> state_after o = Some w' ->
  maximum_capacity (this w') = maximum_capacity (this w).
Proof.
  intros Hstep Hafter.
  destruct Hstep; simpl in Hafter; simplify_eq; reflexivity.
Qed.

Lemma reachable_invariant (d : T) c w :
  reachable (api T d) c w ->
  invariant (this w) /\ maximum_capacity (this w) = c.
Proof.
  induction 1 as [it t Hc|w k w' _ [IHinv IHcap] Hafter].
  - split; [now apply invariant_new|reflexivity].
  - pose proof (exec_step d k w IHinv) as Hstep. split.
    + eapply step_invariant; eassumption.
    + erewrite step_capacity; eassumption.
Qed.

(** *** Runs *)

Lemma run_cons (d : T) k cs w :
  run (api T d) (k :: cs) w =
  match exec (api T d) k w with
  | Returns v w' =>
      let (log, w'') := run (api T d) cs w' in ((k, Returns v w') :: log, w'')
  | Throws e w' =>
      let (log, w'') := run (api T d) cs w' in ((k, Throws e w') :: log, w'')
  | Blocks => ([(k, Blocks)], w)
  | Undefined => ([(k, Undefined)], w)
  end.
Proof. reflexivity. Qed.

(** What was in the queue and what was pushed since is what was popped
    since and what is in the queue now. *)
Lemma run_conserves_items (d : T) cs w :
  invariant (this w) ->
  invariant (this (run (api T d) cs w).2) /\
  contents (this w) ++ pushes (run (api T d) cs w).1
  = pops (run (api T d) cs w).1 ++ contents (this (run (api T d) cs w).2).
Proof.
  revert w. induction cs as [|k cs IH]; intros w Hinv.
  - simpl. split; [exact Hinv|]. now rewrite app_nil_r.
  - rewrite run_cons.
    pose proof (exec_step d k w Hinv) as Hstep.
    remember (exec (api T d) k w) as o eqn:Ho. clear Ho.
    destruct Hstep as [w|w|w|x w Hlt|x w Hge|x timeout w Hlt|x timeout w Hge
                      |x w Hpos Hx|w Hle|x timeout w Hpos Hx|timeout w Hle].
    1-3: specialize (IH w Hinv);
         destruct (run (api T d) cs w) as [log w'']; exact IH.
    2, 6: split; [exact Hinv|simpl; now rewrite app_nil_r].
    + pose proof (invariant_enqueued x _ Hinv Hlt) as Hinv1.
      specialize (IH (World (enqueued x (this w)) (item w) (now w)) Hinv1).
      destruct (run (api T d) cs _) as [log w''].
      destruct IH as [IHinv IH]. split; [exact IHinv|].
      simpl in *. rewrite contents_enqueued, <- app_assoc in IH by assumption.
      exact IH.
    + pose proof (invariant_enqueued x _ Hinv Hlt) as Hinv1.
      specialize (IH (World (enqueued x (this w)) (item w) (now w)) Hinv1).
      destruct (run (api T d) cs _) as [log w''].
      destruct IH as [IHinv IH]. split; [exact IHinv|].
      simpl in *. rewrite contents_enqueued, <- app_assoc in IH by assumption.
      exact IH.
    + specialize (IH (park (time_left (now w) timeout) w) Hinv).
      destruct (run (api T d) cs _) as [log w'']. exact IH.
    + pose proof (invariant_dequeued _ Hinv Hpos) as Hinv1.
      specialize (IH (World (dequeued (this w)) (item w) (now w)) Hinv1).
      destruct (run (api T d) cs _) as [log w''].
      destruct IH as [IHinv IH]. split; [exact IHinv|].
      simpl in *. rewrite (contents_dequeued x) by assumption.
      simpl. now rewrite IH.
    + pose proof (invariant_dequeued _ Hinv Hpos) as Hinv1.
      specialize (IH (World (dequeued (this w)) x (now w)) Hinv1).
      destruct (run (api T d) cs _) as [log w''].
      destruct IH as [IHinv IH]. split; [exact IHinv|].
      simpl in *. rewrite (contents_dequeued x) by assumption.
      simpl. now rewrite IH.
    + specialize (IH (park (time_left (now w) timeout) w) Hinv).
      destruct (run (api T d) cs _) as [log w'']. exact IH.
Qed.

Lemma exec_push (d : T) x w :
  invariant (this w) ->
  current_size (this w) < maximum_capacity (this w) ->
  exec (api T d) (call_push x) w
  = Returns VVoid (World (enqueued x (this w)) (item w) (now w)).
Proof. intros. simpl. unfold bind. now rewrite push_returns. Qed.

Lemma exec_push_timeout (d : T) x timeout w :
  invariant (this w) ->
  current_size (this w) < maximum_capacity (this w) ->
  exec (api T d) (call_push_timeout x timeout) w
  = Returns (VBool true) (World (enqueued x (this w)) (item w) (now w)).
Proof. intros. simpl. unfold bind. now rewrite push_timeout_returns. Qed.

(** Pushes on a queue with room for all of them all come back. *)
Lemma run_pushes (d : T) cs w :
  invariant (this w) ->
  Forall (fun k => is_push k = true) cs ->
  current_size (this w) + Z.of_nat (length cs) <= maximum_capacity (this w) ->
  length (run (api T d) cs w).1 = length cs /\
  Forall (fun e => returned e.2 = true) (run (api T d) cs w).1 /\
  invariant (this (run (api T d) cs w).2) /\
  maximum_capacity (this (run (api T d) cs w).2) = maximum_capacity (this w) /\
  current_size (this (run (api T d) cs w).2)
  = current_size (this w) + Z.of_nat (length cs).
Proof.
  revert w. induction cs as [|k cs IH]; intros w Hinv Hpush Hroom.
  - simpl. split_and!; auto. lia.
  - apply Forall_cons in Hpush as [Hk Hpush].
    rewrite run_cons. simpl length in *.
    destruct k as [| | |x|x timeout| |timeout]; try discriminate Hk.
    + rewrite exec_push by (auto; lia).
      pose proof (invariant_enqueued x _ Hinv ltac:(lia)) as Hinv1.
      specialize (IH (World (enqueued x (this w)) (item w) (now w)) Hinv1 Hpush).
      destruct (run (api T d) cs _) as [log w''].
      simpl in *. destruct IH as (IH1 & IH2 & IH3 & IH4 & IH5); [lia|].
      split_and!; auto. lia.
    + rewrite exec_push_timeout by (auto; lia).
      pose proof (invariant_enqueued x _ Hinv ltac:(lia)) as Hinv1.
      specialize (IH (World (enqueued x (this w)) (item w) (now w)) Hinv1 Hpush).
      destruct (run (api T d) cs _) as [log w''].
      simpl in *. destruct IH as (IH1 & IH2 & IH3 & IH4 & IH5); [lia|].
      split_and!; auto. lia.
Qed.
End Enqueue_facts.

(** * The claims about [safe_queue] of enqueue.cpp *)

Section Enqueue_claims.
Context {T : Type}.
Implicit Types (q : enqueue.safe_queue T) (w : world T (enqueue.safe_queue T)).

Import enqueue.

(** C2, amended.  Every call that comes back (size, empty, full, both
    pushes, both pops) keeps the state invariant: the count stays in
    [[0, capacity]], the cursors stay in [[0, capacity)] when the capacity
    is positive, and the count stays congruent to [last - first] modulo the
    capacity.  The capacity never changes and each cursor either stays or
    moves to its modular successor.  The count equals
    [(last - first) mod capacity] as long as the queue is not full; in a
    full queue [last = first]. *)
Theorem calls_preserve_invariant (d : T) k w w' :
  invariant (this w) ->
  state_after (exec (api T d) k w) = Some w' ->
  invariant (this w') /\
  maximum_capacity (this w') = maximum_capacity (this w) /\
  same_or_next (maximum_capacity (this w)) (first (this w)) (first (this w')) /\
  same_or_next (maximum_capacity (this w)) (last (this w)) (last (this w')) /\
  (current_size (this w') < maximum_capacity (this w') ->
     current_size (this w')
     = (last (this w') - first (this w')) mod maximum_capacity (this w')) /\
  (0 < maximum_capacity (this w') ->
   current_size (this w') = maximum_capacity (this w') ->
     last (this w') = first (this w')).
Proof.
  intros Hinv Hafter.
  pose proof (exec_step d k w Hinv) as Hstep.
  pose proof (step_invariant _ _ _ _ Hstep Hinv Hafter) as Hinv'.
  split; [exact Hinv'|].
  split; [eapply step_capacity; eassumption|].
  split; [|split; [|split]].
  - destruct Hstep; simpl in Hafter; simplify_eq; simpl;
      solve [now left | now right].
  - destruct Hstep; simpl in Hafter; simplify_eq; simpl;
      solve [now left | now right].
  - intros Hlt. destruct Hinv' as [Hc Hd Hs Hf Hl Hn].
    rewrite <- Hn by lia. symmetry. apply Z.mod_small. lia.
  - intros Hpos Hfull.
    pose proof (last_is_first_plus_size _ Hinv') as Hlast.
    destruct Hinv' as [Hc Hd Hs Hf Hl Hn].
    rewrite Hlast by lia. rewrite Hfull.
    rewrite <- Zplus_mod_idemp_r, Z.mod_same, Z.add_0_r by lia.
    apply Z.mod_small. apply Hf. lia.
Qed.

(** C3.  A timed push that finds no free slot before its deadline (with a
    single caller: the queue is full when it is called) throws the
    push-timeout error and leaves the queue object, hence the buffer, the
    count and both cursors, and the caller's variable as they were.  The
    caller has then waited until the deadline: for the timeout, or not at
    all if it is not positive, when the timeout fits the steady clock. *)
Theorem push_timeout_leaves_queue_unchanged (x : T) timeout w :
  maximum_capacity (this w) <= current_size (this w) ->
  exists w',
    push_timeout T x timeout w = Throws PushTimeout w' /\
    this w' = this w /\ item w' = item w /\
    now w' = now w + time_left (now w) timeout /\
    (fits_steady_clock (now w) timeout -> now w' = now w + Z.max 0 timeout).
Proof.
  intros Hfull. exists (park (time_left (now w) timeout) w).
  rewrite push_timeout_throws by exact Hfull.
  split_and!; try reflexivity.
  intros Hfits. simpl. now rewrite time_left_fits.
Qed.

(** C4.  A timed pop that finds no item before its deadline (with a single
    caller: the queue is empty when it is called) throws the pop-timeout
    error, leaves the variable bound to [item] untouched and leaves the
    queue object, hence the buffer, the count and both cursors, as they
    were.  The caller has then waited until the deadline: for the timeout,
    or not at all if it is not positive, when the timeout fits the steady
    clock. *)
Theorem pop_timeout_leaves_queue_unchanged timeout w :
  current_size (this w) <= 0 ->
  exists w',
    pop_timeout T timeout w = Throws PopTimeout w' /\
    item w' = item w /\ this w' = this w /\
    now w' = now w + time_left (now w) timeout /\
    (fits_steady_clock (now w) timeout -> now w' = now w + Z.max 0 timeout).
Proof.
  intros Hempty. exists (park (time_left (now w) timeout) w).
  rewrite pop_timeout_throws by exact Hempty.
  split_and!; try reflexivity.
  intros Hfits. simpl. now rewrite time_left_fits.
Qed.

(** C5.  In every state a queue constructed with capacity 0 can be in,
    [empty()] and [full()] both return true, every timed push throws the
    push-timeout error and every timed pop throws the pop-timeout error,
    each leaving the queue as it was. *)
Theorem zero_capacity_queue (d : T) w :
  reachable (api T d) 0 w ->
  empty T w = Returns true w /\
  full T w = Returns true w /\
  (forall x timeout,
     push_timeout T x timeout w
     = Throws PushTimeout (park (time_left (now w) timeout) w)) /\
  (forall timeout,
     pop_timeout T timeout w
     = Throws PopTimeout (park (time_left (now w) timeout) w)) /\
  this w = new T d 0.
Proof.
  intros Hreach.
  assert (Hfix : this w = new T d 0).
  { induction Hreach as [it t Hc|w k w' Hreach IH Hafter]; [reflexivity|].
    destruct (reachable_invariant d 0 w Hreach) as [Hinv Hcap].
    pose proof (exec_step d k w Hinv) as Hstep.
    destruct Hinv as [_ _ Hs _ _ _].
    destruct Hstep; simpl in Hafter; simplify_eq; simpl; auto; lia. }
  destruct (reachable_invariant d 0 w Hreach) as [[_ _ Hs _ _ _] Hcap].
  assert (Hsize : current_size (this w) = 0) by lia.
  split_and!.
  - unfold empty, bind, get, ret. now rewrite Hsize.
  - unfold full, bind, get, ret. now rewrite Hsize, Hcap.
  - intros. apply push_timeout_throws. lia.
  - intros. apply pop_timeout_throws. lia.
  - exact Hfix.
Qed.

(** C7.  In every reachable state with an empty queue of positive
    capacity, [push(x)] returns and the [pop()] that follows returns [x],
    leaving the queue empty again. *)
Theorem pop_after_push_round_trip (d : T) c w (x : T) :
  reachable (api T d) c w ->
  current_size (this w) = 0 ->
  0 < maximum_capacity (this w) ->
  exists w1 w2,
    push T x w = Returns tt w1 /\
    pop T w1 = Returns x w2 /\
    current_size (this w2) = 0.
Proof.
  intros Hreach Hempty Hpos.
  destruct (reachable_invariant d c w Hreach) as [Hinv _].
  pose proof (invariant_enqueued x _ Hinv ltac:(lia)) as Hinv1.
  set (w1 := World (enqueued x (this w)) (item w) (now w)).
  destruct (pop_returns w1 Hinv1) as (y & Hy & Hpop); [simpl; lia|].
  exists w1, (World (dequeued (this w1)) (item w1) (now w1)).
  split; [apply push_returns; [assumption|lia]|].
  assert (y = x) as ->.
  { pose proof (last_is_first_plus_size _ Hinv Hpos) as Hlast.
    destruct Hinv as [Hc Hd Hs Hf Hl Hn].
    rewrite Hempty, Z.add_0_r, Z.mod_small in Hlast by auto.
    simpl in Hy. rewrite Hlast, list_lookup_insert_eq in Hy by lia.
    congruence. }
  split; [exact Hpop|]. simpl. lia.
Qed.

(** C10.  In every reachable state no push and no pop, timed or not, has
    undefined behaviour: where the wait of a push lets the caller through,
    the capacity is not zero and [last] indexes a slot of the buffer; where
    the wait of a pop lets the caller through, the capacity is not zero and
    [first] indexes a slot of the buffer. *)
Theorem no_undefined_behaviour (d : T) c w :
  reachable (api T d) c w ->
  (forall x, push T x w <> Undefined) /\
  (forall x timeout, push_timeout T x timeout w <> Undefined) /\
  pop T w <> Undefined /\
  (forall timeout, pop_timeout T timeout w <> Undefined) /\
  (current_size (this w) < maximum_capacity (this w) ->
     maximum_capacity (this w) <> 0 /\
     (Z.to_nat (last (this w)) < length (queue_data (this w)))%nat) /\
  (0 < current_size (this w) ->
     maximum_capacity (this w) <> 0 /\
     (Z.to_nat (first (this w)) < length (queue_data (this w)))%nat).
Proof.
  intros Hreach.
  destruct (reachable_invariant d c w Hreach) as [Hinv _].
  split_and!.
  - intros x.
    destruct (Z.lt_ge_cases (current_size (this w)) (maximum_capacity (this w))).
    + now rewrite push_returns.
    + now rewrite push_blocks.
  - intros x timeout.
    destruct (Z.lt_ge_cases (current_size (this w)) (maximum_capacity (this w))).
    + now rewrite push_timeout_returns.
    + now rewrite push_timeout_throws.
  - destruct (Z.lt_ge_cases 0 (current_size (this w))).
    + destruct (pop_returns w Hinv) as (x & _ & ->); [assumption|easy].
    + now rewrite pop_blocks.
  - intros timeout.
    destruct (Z.lt_ge_cases 0 (current_size (this w))).
    + destruct (pop_timeout_returns timeout w Hinv) as (x & _ & ->);
        [assumption|easy].
    + now rewrite pop_timeout_throws.
  - destruct Hinv as [Hc Hd Hs Hf Hl Hn]. lia.
  - destruct Hinv as [Hc Hd Hs Hf Hl Hn]. lia.
Qed.


(** C1.  In every run of pushes and pops (and queries) made one after the
    other on a fresh queue, the n-th pop that comes back delivers the item
    of the n-th push that came back: the items popped are the first of the
    items pushed, in order, and the rest is what the queue still holds. *)
Theorem fifo_order (d : T) c cs it t :
  is_size_t c ->
  let r := run (api T d) cs (World (new T d c) it t) in
  pushes r.1 = pops r.1 ++ contents (this r.2) /\
  forall n x, pops r.1 !! n = Some x -> pushes r.1 !! n = Some x.
Proof.
  intros Hc r.
  destruct (run_conserves_items d cs (World (new T d c) it t)) as [_ Hkeep].
  { now apply invariant_new. }
  fold r in Hkeep. simpl in Hkeep.
  split; [exact Hkeep|].
  intros n x Hn. rewrite Hkeep. now apply lookup_app_l_Some.
Qed.

(** C6.  For every capacity [c], [c] pushes (timed or not) on a fresh
    queue all come back; after them [full()] returns true, [size()]
    returns [c], and every further timed push throws the push-timeout
    error and leaves the queue as it was. *)
Theorem full_after_capacity_pushes (d : T) c cs it t :
  is_size_t c ->
  Forall (fun k => is_push k = true) cs ->
  Z.of_nat (length cs) = c ->
  let r := run (api T d) cs (World (new T d c) it t) in
  length r.1 = length cs /\
  Forall (fun e => returned e.2 = true) r.1 /\
  full T r.2 = Returns true r.2 /\
  size T r.2 = Returns c r.2 /\
  forall x timeout,
    exists w',
      push_timeout T x timeout r.2 = Throws PushTimeout w' /\
      this w' = this r.2.
Proof.
  intros Hc Hpush Hlen r.
  destruct (run_pushes d cs (World (new T d c) it t)) as (H1 & H2 & H3 & H4 & H5).
  { now apply invariant_new. }
  { exact Hpush. }
  { simpl. lia. }
  fold r in H1, H2, H3, H4, H5. simpl in H4, H5.
  split_and!; auto.
  - unfold full, bind, get, ret. rewrite H4, H5, Hlen, Z.add_0_l.
    now rewrite Z.eqb_refl.
  - unfold size, bind, get, ret. now rewrite H5, Hlen, Z.add_0_l.
  - intros x timeout. exists (park (time_left (now r.2) timeout) r.2).
    rewrite push_timeout_throws by lia. auto.
Qed.
End Enqueue_claims.

(** * The three classes side by side *)

Section Side_by_side.
Context {T : Type}.

Lemma cpp_push x w :
  outcome_map of_queue_cpp (queue_cpp.push T x w)
  = enqueue.push T x (world_map of_queue_cpp w).
Proof. unfold queue_cpp.push, enqueue.push. same_code. Qed.

Lemma cpp_push_timeout x timeout w :
  outcome_map of_queue_cpp (queue_cpp.push_timeout T x timeout w)
  = enqueue.push_timeout T x timeout (world_map of_queue_cpp w).
Proof. unfold queue_cpp.push_timeout, enqueue.push_timeout. same_code. Qed.

Lemma cpp_pop w :
  outcome_map of_queue_cpp (queue_cpp.pop T w)
  = enqueue.pop T (world_map of_queue_cpp w).
Proof. unfold queue_cpp.pop, enqueue.pop. same_code. Qed.

Lemma cpp_pop_timeout timeout w :
  outcome_map of_queue_cpp (queue_cpp.pop_timeout T timeout w)
  = enqueue.pop_timeout T timeout (world_map of_queue_cpp w).
Proof. unfold queue_cpp.pop_timeout, enqueue.pop_timeout. same_code. Qed.

Lemma h_size w :
  outcome_map of_queue_h (queue_h.size T w)
  = enqueue.size T (world_map of_queue_h w).
Proof. unfold queue_h.size, enqueue.size. same_code. Qed.

Lemma h_empty w :
  outcome_map of_queue_h (queue_h.empty T w)
  = enqueue.empty T (world_map of_queue_h w).
Proof. unfold queue_h.empty, enqueue.empty. same_code. Qed.

Lemma h_full w :
  outcome_map of_queue_h (queue_h.full T w)
  = enqueue.full T (world_map of_queue_h w).
Proof. unfold queue_h.full, enqueue.full. same_code. Qed.

Lemma h_push x w :
  outcome_map of_queue_h (queue_h.push T x w)
  = enqueue.push T x (world_map of_queue_h w).
Proof. unfold queue_h.push, enqueue.push. same_code. Qed.

Lemma h_push_timeout x timeout w :
  outcome_map of_queue_h (queue_h.push_timeout T x timeout w)
  = enqueue.push_timeout T x timeout (world_map of_queue_h w).
Proof. unfold queue_h.push_timeout, enqueue.push_timeout. same_code. Qed.

Lemma h_pop w :
  outcome_map of_queue_h (queue_h.pop T w)
  = enqueue.pop T (world_map of_queue_h w).
Proof. unfold queue_h.pop, enqueue.pop. same_code. Qed.

Lemma h_pop_timeout timeout w :
  outcome_map of_queue_h (queue_h.pop_timeout T timeout w)
  = enqueue.pop_timeout T timeout (world_map of_queue_h w).
Proof. unfold queue_h.pop_timeout, enqueue.pop_timeout. same_code. Qed.

(** *** Two classes whose member functions commute with a renaming *)

Section Commuting.
Context {Q Q' : Type} (f : Q -> Q').
Context (a : queue_api T Q) (a' : queue_api T Q').
Hypothesis Hsize : forall w,
  outcome_map f (api_size a w) = api_size a' (world_map f w).
Hypothesis Hempty : forall w,
  outcome_map f (api_empty a w) = api_empty a' (world_map f w).
Hypothesis Hfull : forall w,
  outcome_map f (api_full a w) = api_full a' (world_map f w).
Hypothesis Hpush : forall x w,
  outcome_map f (api_push a x w) = api_push a' x (world_map f w).
Hypothesis Hpush_timeout : forall x timeout w,
  outcome_map f (api_push_timeout a x timeout w)
  = api_push_timeout a' x timeout (world_map f w).
Hypothesis Hpop : forall w,
  outcome_map f (api_pop a w) = api_pop a' (world_map f w).
Hypothesis Hpop_timeout : forall timeout w,
  outcome_map f (api_pop_timeout a timeout w)
  = api_pop_timeout a' timeout (world_map f w).

Lemma exec_commutes k w :
  outcome_map f (exec a k w) = exec a' k (world_map f w).
Proof.
  destruct k as [| | |x|x timeout| |timeout]; simpl; unfold bind.
  - rewrite <- Hsize. now destruct (api_size a w).
  - rewrite <- Hempty. now destruct (api_empty a w).
  - rewrite <- Hfull. now destruct (api_full a w).
  - rewrite <- Hpush. now destruct (api_push a x w).
  - rewrite <- Hpush_timeout. now destruct (api_push_timeout a x timeout w).
  - rewrite <- Hpop. now destruct (api_pop a w).
  - rewrite <- Hpop_timeout. now destruct (api_pop_timeout a timeout w).
Qed.

Lemma run_commutes cs w :
  observations (run a' cs (world_map f w)).1 = observations (run a cs w).1 /\
  (run a' cs (world_map f w)).2 = world_map f (run a cs w).2.
Proof.
  revert w. induction cs as [|k cs IH]; intros w; [now split|].
  simpl. rewrite <- exec_commutes.
  destruct (exec a k w) as [v w'|e w'| |]; simpl; try now split.
  - specialize (IH w').
    destruct (run a' cs (world_map f w')) as [log' v'].
    destruct (run a cs w') as [log v'']. simpl in *.
    destruct IH as [-> ->]. now split.
  - specialize (IH w').
    destruct (run a' cs (world_map f w')) as [log' v'].
    destruct (run a cs w') as [log v'']. simpl in *.
    destruct IH as [-> ->]. now split.
Qed.
End Commuting.

(** *** The contents of never-written slots do not show *)

Implicit Types (q : enqueue.safe_queue T) (w : world T (enqueue.safe_queue T)).

Lemma abstract_enqueued x q1 q2 :
  invariant q1 -> invariant q2 -> abstract q1 = abstract q2 ->
  enqueue.current_size q1 < enqueue.maximum_capacity q1 ->
  abstract (enqueued x q1) = abstract (enqueued x q2).
Proof.
  intros Hinv1 Hinv2 Habs Hlt. unfold abstract in *. simplify_eq.
  rewrite !contents_enqueued by (auto; congruence). simpl.
  congruence.
Qed.

Lemma abstract_dequeued x1 x2 q1 q2 :
  invariant q1 -> invariant q2 -> abstract q1 = abstract q2 ->
  0 < enqueue.current_size q1 ->
  enqueue.queue_data q1 !! Z.to_nat (enqueue.first q1) = Some x1 ->
  enqueue.queue_data q2 !! Z.to_nat (enqueue.first q2) = Some x2 ->
  x1 = x2 /\ abstract (dequeued q1) = abstract (dequeued q2).
Proof.
  intros Hinv1 Hinv2 Habs Hpos Hx1 Hx2. unfold abstract in *. simplify_eq.
  rewrite (contents_dequeued x1 q1), (contents_dequeued x2 q2) in *
    by (auto; congruence).
  simplify_eq. split; [reflexivity|]. simpl. congruence.
Qed.

Lemma step_alike k w1 w2 o1 o2 :
  step k w1 o1 -> step k w2 o2 ->
  invariant (this w1) -> invariant (this w2) -> look w1 = look w2 ->
  observe o1 = observe o2 /\
  match state_after o1, state_after o2 with
  | Some w1', Some w2' => look w1' = look w2'
  | None, None => True
  | _, _ => False
  end.
Proof.
  intros Hs1 Hs2 Hinv1 Hinv2 Hlook.
  assert (Habs : abstract (this w1) = abstract (this w2))
    by (unfold look in Hlook; congruence).
  assert (Hitem : item w1 = item w2) by (unfold look in Hlook; congruence).
  assert (Hnow : now w1 = now w2) by (unfold look in Hlook; congruence).
  assert (Hcap : enqueue.maximum_capacity (this w1)
                 = enqueue.maximum_capacity (this w2))
    by (unfold abstract in Habs; congruence).
  assert (Hsize : enqueue.current_size (this w1)
                  = enqueue.current_size (this w2))
    by (unfold abstract in Habs; congruence).
  destruct Hs1; inversion Hs2; subst; try lia; simpl.
  all: try (split; [congruence|exact Hlook]).
  all: try (split; [reflexivity|exact I]).
  - split; [congruence|]. unfold look. simpl.
    now rewrite (abstract_enqueued x _ _ Hinv1 Hinv2 Habs), Hitem, Hnow.
  - split; [congruence|]. unfold look. simpl.
    now rewrite (abstract_enqueued x _ _ Hinv1 Hinv2 Habs), Hitem, Hnow.
  - split; [congruence|]. unfold look. simpl. congruence.
  - destruct (abstract_dequeued x x0 _ _ Hinv1 Hinv2 Habs) as [-> Hd];
      try assumption.
    split; [congruence|]. unfold look. simpl. congruence.
  - destruct (abstract_dequeued x x0 _ _ Hinv1 Hinv2 Habs) as [-> Hd];
      try assumption.
    split; [congruence|]. unfold look. simpl. congruence.
  - split; [congruence|]. unfold look. simpl. congruence.
Qed.

Lemma run_alike (d v : T) cs w1 w2 :
  invariant (this w1) -> invariant (this w2) -> look w1 = look w2 ->
  observations (run (enqueue.api T d) cs w1).1
  = observations (run (enqueue.api T v) cs w2).1 /\
  look (run (enqueue.api T d) cs w1).2 = look (run (enqueue.api T v) cs w2).2.
Proof.
  revert w1 w2. induction cs as [|k cs IH]; intros w1 w2 Hinv1 Hinv2 Hlook.
  - now split.
  - rewrite !run_cons.
    pose proof (exec_step d k w1 Hinv1) as Hs1.
    pose proof (exec_step v k w2 Hinv2) as Hs2.
    destruct (step_alike _ _ _ _ _ Hs1 Hs2 Hinv1 Hinv2 Hlook) as [Hobs Hnext].
    pose proof (fun u => step_invariant _ _ _ u Hs1 Hinv1) as Hkeep1.
    pose proof (fun u => step_invariant _ _ _ u Hs2 Hinv2) as Hkeep2.
    destruct (exec (enqueue.api T d) k w1) as [a1 w1'|e1 w1'| |];
      destruct (exec (enqueue.api T v) k w2) as [a2 w2'|e2 w2'| |];
      simpl in Hobs, Hnext; try discriminate Hobs; try contradiction.
    + specialize (IH w1' w2' (Hkeep1 _ eq_refl) (Hkeep2 _ eq_refl) Hnext).
      destruct (run (enqueue.api T d) cs w1') as [log1 u1].
      destruct (run (enqueue.api T v) cs w2') as [log2 u2].
      simpl in *. destruct IH as [IH1 IH2]. split; [|exact IH2].
      unfold observations in *. simpl. now rewrite Hobs, IH1.
    + specialize (IH w1' w2' (Hkeep1 _ eq_refl) (Hkeep2 _ eq_refl) Hnext).
      destruct (run (enqueue.api T d) cs w1') as [log1 u1].
      destruct (run (enqueue.api T v) cs w2') as [log2 u2].
      simpl in *. destruct IH as [IH1 IH2]. split; [|exact IH2].
      unfold observations in *. simpl. now rewrite Hobs, IH1.
    + now split.
    + now split.
Qed.

(** *** The class of queue.cpp, whose queries cannot be called *)

Lemma queue_cpp_call_is_pushpop (k : call T) :
  match queue_cpp_call k with
  | Some _ => is_query k = false
  | None => is_query k = true
  end.
Proof. now destruct k. Qed.

Lemma compiles_queue_cpp (cs : list (call T)) :
  compiles queue_cpp_call cs = negb (existsb is_query cs).
Proof.
  induction cs as [|k cs IH]; [reflexivity|].
  simpl. rewrite IH. now destruct k.
Qed.

Lemma queue_cpp_call_commutes (d : T) k m
    (w : world T (queue_cpp.safe_queue T)) :
  queue_cpp_call k = Some m ->
  outcome_map of_queue_cpp (m w)
  = exec (enqueue.api T d) k (world_map of_queue_cpp w).
Proof.
  intros Hk.
  destruct k as [| | |x|x timeout| |timeout]; simpl in Hk; simplify_eq;
    simpl; unfold bind.
  - rewrite <- cpp_push. now destruct (queue_cpp.push T x w).
  - rewrite <- cpp_push_timeout.
    now destruct (queue_cpp.push_timeout T x timeout w).
  - rewrite <- cpp_pop. now destruct (queue_cpp.pop T w).
  - rewrite <- cpp_pop_timeout. now destruct (queue_cpp.pop_timeout T timeout w).
Qed.

Lemma run_members_queue_cpp (d : T) cs
    (w : world T (queue_cpp.safe_queue T)) r :
  run_members queue_cpp_call cs w = Some r ->
  run (enqueue.api T d) cs (world_map of_queue_cpp w)
  = (map (renamed_entry of_queue_cpp) r.1, world_map of_queue_cpp r.2).
Proof.
  revert w r. induction cs as [|k cs IH]; intros w r Hrun.
  - simpl in Hrun. now simplify_eq.
  - simpl in Hrun. rewrite run_cons.
    destruct (queue_cpp_call k) as [m|] eqn:Hk; [|discriminate Hrun].
    rewrite <- (queue_cpp_call_commutes d k m w Hk).
    destruct (m w) as [v w'|e w'| |]; simpl.
    + destruct (run_members queue_cpp_call cs w') as [[log w'']|] eqn:Hrest;
        [|discriminate Hrun].
      rewrite (IH w' _ Hrest). now simplify_eq.
    + destruct (run_members queue_cpp_call cs w') as [[log w'']|] eqn:Hrest;
        [|discriminate Hrun].
      rewrite (IH w' _ Hrest). now simplify_eq.
    + now simplify_eq.
    + now simplify_eq.
Qed.

Lemma run_members_is_Some {Q} (member : call T -> option (M T Q (value T)))
    cs (w : world T Q) :
  compiles member cs = true -> is_Some (run_members member cs w).
Proof.
  revert w. induction cs as [|k cs IH]; intros w Hcs; [now eexists|].
  simpl in Hcs. apply andb_prop in Hcs as [Hk Hcs]. simpl.
  destruct (member k) as [m|]; [|discriminate Hk].
  destruct (m w) as [v w'|e w'| |]; try now eexists.
  - destruct (IH w' Hcs) as [[log w''] ->]. now eexists.
  - destruct (IH w' Hcs) as [[log w''] ->]. now eexists.
Qed.

Lemma observations_renamed {Q Q'} (f : Q -> Q')
    (log : list (call T * outcome T Q (value T))) :
  observations (map (renamed_entry f) log) = observations log.
Proof.
  unfold observations. rewrite map_map. apply map_ext.
  intros [k o]. now destruct o.
Qed.

(** C9.  For every capacity and every sequence of calls of [size],
    [empty], [full], [push] and [pop], timed or not, made by one thread on
    a fresh queue, [ThreadSafeQueue] of queue.h and [safe_queue] of
    enqueue.h let the caller observe the same: call by call the same return
    value or the same exception (or the same call that never returns), the
    same value in [item] and the same clock; and they end with the same
    capacity, count, cursors and live items.  [safe_queue] of queue.cpp does
    so on the sequences of pushes and pops; a program that calls its
    [size], [empty] or [full] does not exist, the mutex these [const]
    members lock being declared without [mutable].  What the fresh buffers
    hold ([default_init], [default_init'], [value_init]) makes no
    difference. *)
Theorem three_classes_agree (default_init default_init' value_init : T)
    c cs it t :
  is_size_t c ->
  let r1 := run (enqueue.api T default_init) cs
              (World (enqueue.new T default_init c) it t) in
  let r3 := run (queue_h.api T value_init) cs
              (World (queue_h.new T value_init c) it t) in
  let program2 := run_program queue_cpp_call cs
                    (World (queue_cpp.new T default_init' c) it t) in
  observations r3.1 = observations r1.1 /\
  (abstract_h (this r3.2), item r3.2, now r3.2) = look r1.2 /\
  (existsb is_query cs = true -> program2 = None) /\
  (existsb is_query cs = false ->
   exists r2,
     program2 = Some r2 /\
     observations r2.1 = observations r1.1 /\
     (abstract_cpp (this r2.2), item r2.2, now r2.2) = look r1.2).
Proof.
  intros Hc r1 r3 program2.
  destruct (run_commutes of_queue_h (queue_h.api T value_init)
              (enqueue.api T value_init)
              h_size h_empty h_full h_push h_push_timeout
              h_pop h_pop_timeout cs
              (World (queue_h.new T value_init c) it t)) as [Hobs3 Hend3].
  destruct (run_alike default_init default_init' cs
              (World (enqueue.new T default_init c) it t)
              (World (enqueue.new T default_init' c) it t)) as [Hobs Hend].
  { now apply invariant_new. }
  { now apply invariant_new. }
  { reflexivity. }
  destruct (run_alike default_init value_init cs
              (World (enqueue.new T default_init c) it t)
              (World (enqueue.new T value_init c) it t)) as [Hobs' Hend'].
  { now apply invariant_new. }
  { now apply invariant_new. }
  { reflexivity. }
  fold r3 in Hobs3, Hend3.
  fold r1 in Hobs, Hend, Hobs', Hend'.
  change (world_map of_queue_h (World (queue_h.new T value_init c) it t))
    with (World (enqueue.new T value_init c) it t) in Hobs3, Hend3.
  split_and!.
  - now rewrite <- Hobs3, Hobs'.
  - rewrite Hend', Hend3. reflexivity.
  - intros Hq. unfold program2, run_program.
    now rewrite compiles_queue_cpp, Hq.
  - intros Hq. unfold program2, run_program.
    rewrite compiles_queue_cpp, Hq. simpl.
    destruct (run_members_is_Some queue_cpp_call cs
                (World (queue_cpp.new T default_init' c) it t)) as [r2 Hr2].
    { now rewrite compiles_queue_cpp, Hq. }
    exists r2. split; [exact Hr2|].
    pose proof (run_members_queue_cpp default_init' cs _ r2 Hr2) as Hrun.
    change (world_map of_queue_cpp
              (World (queue_cpp.new T default_init' c) it t))
      with (World (enqueue.new T default_init' c) it t) in Hrun.
    rewrite Hrun in Hobs, Hend. simpl in Hobs, Hend.
    rewrite observations_renamed in Hobs.
    split; [now rewrite Hobs|]. rewrite Hend. reflexivity.
Qed.
End Side_by_side.

(** * The unit tests of enqueue_tests.cpp on the model

    Each example runs the calls of one test on [safe_queue<int>] and lists
    what the test observes.  A thrown exception shows the clock advanced by
    the timeout. *)

Example test_InitialState :
  observations (run (enqueue.api Z 0) [call_empty; call_full; call_size]
                  (World (enqueue.new Z 0 5) 0 0)).1
  = [Returned (VBool true) 0 0; Returned (VBool false) 0 0;
     Returned (VSize 0) 0 0].
Proof. reflexivity. Qed.

Example test_PushAndPop :
  observations (run (enqueue.api Z 0)
                  [call_push 42; call_empty; call_size; call_pop; call_empty]
                  (World (enqueue.new Z 0 5) 0 0)).1
  = [Returned VVoid 0 0; Returned (VBool false) 0 0; Returned (VSize 1) 0 0;
     Returned (VItem 42) 0 0; Returned (VBool true) 0 0].
Proof. reflexivity. Qed.

Example test_PopUntilEmpty :
  observations (run (enqueue.api Z 0)
                  [call_push 1; call_push 2; call_push 3; call_push 4;
                   call_push 5; call_full; call_pop; call_pop; call_pop;
                   call_pop; call_pop; call_empty]
                  (World (enqueue.new Z 0 5) 0 0)).1
  = [Returned VVoid 0 0; Returned VVoid 0 0; Returned VVoid 0 0;
     Returned VVoid 0 0; Returned VVoid 0 0; Returned (VBool true) 0 0;
     Returned (VItem 1) 0 0; Returned (VItem 2) 0 0; Returned (VItem 3) 0 0;
     Returned (VItem 4) 0 0; Returned (VItem 5) 0 0;
     Returned (VBool true) 0 0].
Proof. reflexivity. Qed.

Example test_PushWithTimeoutFailure :
  observations (run (enqueue.api Z 0)
                  [call_push 0; call_push 1; call_push 2; call_push 3;
                   call_push 4; call_push_timeout 6 50; call_size]
                  (World (enqueue.new Z 0 5) 0 0)).1
  = [Returned VVoid 0 0; Returned VVoid 0 0; Returned VVoid 0 0;
     Returned VVoid 0 0; Returned VVoid 0 0; Thrown PushTimeout 0 50;
     Returned (VSize 5) 0 50].
Proof. reflexivity. Qed.

Example test_PopWithTimeout :
  observations (run (enqueue.api Z 0)
                  [call_push 42; call_pop_timeout 100; call_pop_timeout 50]
                  (World (enqueue.new Z 0 5) 0 0)).1
  = [Returned VVoid 0 0; Returned (VBool true) 42 0; Thrown PopTimeout 42 50].
Proof. reflexivity. Qed.

Example test_ZeroCapacityQueue :
  observations (run (enqueue.api Z 0)
                  [call_empty; call_full; call_push_timeout 1 10;
                   call_pop_timeout 10; call_push 1]
                  (World (enqueue.new Z 0 0) 0 0)).1
  = [Returned (VBool true) 0 0; Returned (VBool true) 0 0;
     Thrown PushTimeout 0 10; Thrown PopTimeout 0 20; Blocked].
Proof. reflexivity. Qed.

Example test_SingleCapacityQueue :
  observations (run (enqueue.api Z 0)
                  [call_push 42; call_full; call_push_timeout 43 10; call_pop;
                   call_empty]
                  (World (enqueue.new Z 0 1) 0 0)).1
  = [Returned VVoid 0 0; Returned (VBool true) 0 0; Thrown PushTimeout 0 10;
     Returned (VItem 42) 0 10; Returned (VBool true) 0 10].
Proof. reflexivity. Qed.

(** The write cursor wraps: three pushes and pops through two slots. *)
Example test_wrap_around :
  (run (enqueue.api Z 0)
     [call_push 1; call_push 2; call_pop; call_push 3; call_pop; call_pop]
     (World (enqueue.new Z 0 2) 0 0)).2
  = World (enqueue.Build_safe_queue Z [3; 2] 2 0 1 1) 0 0.
Proof. reflexivity. Qed.

(** * The theorems at work on queues of [int] *)

(** [push(7)] on a fresh queue of capacity 1. *)
Lemma reachable_full_single :
  reachable (enqueue.api Z 0) 1 full_single.
Proof.
  apply reachable_call with (w := World (enqueue.new Z 0 1) 0 0) (k := call_push 7).
  - apply reachable_new. size_t_range.
  - reflexivity.
Defined.

(** [push(7)] then [pop()] on a fresh queue of capacity 2. *)
Lemma reachable_emptied_pair :
  reachable (enqueue.api Z 0) 2 emptied_pair.
Proof.
  apply reachable_call
    with (w := World (enqueue.Build_safe_queue Z [7; 0] 2 1 0 1) 0 0)
         (k := call_pop).
  - apply reachable_call with (w := World (enqueue.new Z 0 2) 0 0) (k := call_push 7).
    + apply reachable_new. size_t_range.
    + reflexivity.
  - reflexivity.
Defined.

(** C2 as stated fails: a fresh queue of capacity 1 satisfies the invariant
    with the count equal to [(last - first) mod capacity]; after [push(7)]
    the count is 1 and [(last - first) mod capacity] is 0. *)
Lemma equation_broken_by_push :
  invariant_with_equation (this (World (enqueue.new Z 0 1) 0 0)) /\
  state_after (exec (enqueue.api Z 0) (call_push 7) (World (enqueue.new Z 0 1) 0 0))
  = Some full_single /\
  ~ invariant_with_equation (this full_single).
Proof.
  split_and!.
  - unfold invariant_with_equation. simpl. split; [lia|].
    intros _. split_and!; try lia. reflexivity.
  - reflexivity.
  - unfold invariant_with_equation. simpl. intros [_ H].
    destruct H as (_ & _ & H); [lia|]. discriminate H.
Qed.

(** The first push on a queue of capacity 1 fills it: the invariant holds
    and the cursors meet. *)
Lemma calls_preserve_invariant_witness :
  invariant (this (World (enqueue.new Z 0 1) 0 0)) /\
  state_after (exec (enqueue.api Z 0) (call_push 7) (World (enqueue.new Z 0 1) 0 0))
  = Some full_single /\
  invariant (this full_single) /\
  enqueue.last (this full_single) = enqueue.first (this full_single).
Proof.
  assert (Hinv : invariant (this (World (enqueue.new Z 0 1) 0 0)))
    by invariant_by_evaluation.
  split; [exact Hinv|]. split; [reflexivity|].
  destruct (calls_preserve_invariant 0 (call_push 7)
              (World (enqueue.new Z 0 1) 0 0) full_single Hinv eq_refl)
    as (H1 & _ & _ & _ & _ & H6).
  split; [exact H1|]. apply H6; simpl; lia.
Defined.

(** A timed push of 50 ms on the full queue. *)
Lemma push_timeout_leaves_queue_unchanged_witness :
  enqueue.maximum_capacity (this full_single)
  <= enqueue.current_size (this full_single) /\
  exists w',
    enqueue.push_timeout Z 8 50 full_single = Throws PushTimeout w' /\
    this w' = this full_single /\ item w' = item full_single /\
    now w' = now full_single + time_left (now full_single) 50 /\
    (fits_steady_clock (now full_single) 50 ->
     now w' = now full_single + Z.max 0 50).
Proof.
  split; [simpl; lia|].
  apply (push_timeout_leaves_queue_unchanged 8 50 full_single). simpl. lia.
Defined.

(** A timed pop of 50 ms on the emptied queue. *)
Lemma pop_timeout_leaves_queue_unchanged_witness :
  enqueue.current_size (this emptied_pair) <= 0 /\
  exists w',
    enqueue.pop_timeout Z 50 emptied_pair = Throws PopTimeout w' /\
    item w' = item emptied_pair /\ this w' = this emptied_pair /\
    now w' = now emptied_pair + time_left (now emptied_pair) 50 /\
    (fits_steady_clock (now emptied_pair) 50 ->
     now w' = now emptied_pair + Z.max 0 50).
Proof.
  split; [simpl; lia|].
  apply (pop_timeout_leaves_queue_unchanged 50 emptied_pair). simpl. lia.
Defined.

(** The fresh queue of capacity 0. *)
Lemma zero_capacity_queue_witness :
  reachable (enqueue.api Z 0) 0 (World (enqueue.new Z 0 0) 0 0) /\
  enqueue.empty Z (World (enqueue.new Z 0 0) 0 0)
  = Returns true (World (enqueue.new Z 0 0) 0 0) /\
  enqueue.full Z (World (enqueue.new Z 0 0) 0 0)
  = Returns true (World (enqueue.new Z 0 0) 0 0).
Proof.
  assert (Hreach : reachable (enqueue.api Z 0) 0 (World (enqueue.new Z 0 0) 0 0)).
  { apply reachable_new. size_t_range. }
  split; [exact Hreach|].
  destruct (zero_capacity_queue 0 _ Hreach) as (H1 & H2 & _).
  split; [exact H1|exact H2].
Defined.

(** [push(9)] then [pop()] on the emptied queue, whose cursors are on slot 1. *)
Lemma pop_after_push_round_trip_witness :
  reachable (enqueue.api Z 0) 2 emptied_pair /\
  enqueue.current_size (this emptied_pair) = 0 /\
  0 < enqueue.maximum_capacity (this emptied_pair) /\
  exists w1 w2,
    enqueue.push Z 9 emptied_pair = Returns tt w1 /\
    enqueue.pop Z w1 = Returns 9 w2 /\
    enqueue.current_size (this w2) = 0.
Proof.
  split; [exact reachable_emptied_pair|].
  split; [reflexivity|]. split; [simpl; lia|].
  apply (pop_after_push_round_trip 0 2 emptied_pair 9 reachable_emptied_pair).
  - reflexivity.
  - simpl. lia.
Defined.

(** Pushes and the pop on the full queue of capacity 1. *)
Lemma no_undefined_behaviour_witness :
  reachable (enqueue.api Z 0) 1 full_single /\
  enqueue.pop Z full_single <> Undefined /\
  (forall x, enqueue.push Z x full_single <> Undefined).
Proof.
  split; [exact reachable_full_single|].
  destruct (no_undefined_behaviour 0 1 full_single reachable_full_single)
    as (H1 & _ & H3 & _).
  split; [exact H3|exact H1].
Defined.



(** Seven calls on a queue of capacity 2, the last of them a timed pop on
    the empty queue. *)
Lemma fifo_order_witness :
  is_size_t 2 /\
  let r := run (enqueue.api Z 0)
             [call_push 7; call_push 8; call_pop; call_push_timeout 9 5;
              call_pop_timeout 5; call_pop; call_pop_timeout 5]
             (World (enqueue.new Z 0 2) 0 0) in
  pushes r.1 = pops r.1 ++ contents (this r.2) /\
  forall n x, pops r.1 !! n = Some x -> pushes r.1 !! n = Some x.
Proof.
  split; [size_t_range|].
  apply (fifo_order 0 2). size_t_range.
Defined.

(** One untimed and one timed push fill a queue of capacity 2. *)
Lemma full_after_capacity_pushes_witness :
  is_size_t 2 /\
  Forall (fun k => is_push k = true) [call_push 7; call_push_timeout 8 5] /\
  Z.of_nat (length [call_push 7; call_push_timeout 8 5]) = 2 /\
  let r := run (enqueue.api Z 0) [call_push 7; call_push_timeout 8 5]
             (World (enqueue.new Z 0 2) 0 0) in
  enqueue.full Z r.2 = Returns true r.2 /\
  enqueue.size Z r.2 = Returns 2 r.2.
Proof.
  assert (Hpush : Forall (fun k : call Z => is_push k = true)
                    [call_push 7; call_push_timeout 8 5]).
  { repeat constructor. }
  split; [size_t_range|]. split; [exact Hpush|]. split; [reflexivity|].
  destruct (full_after_capacity_pushes 0 2 [call_push 7; call_push_timeout 8 5]
              0 0 ltac:(size_t_range) Hpush eq_refl) as (_ & _ & H3 & H4 & _).
  split; [exact H3|exact H4].
Defined.

(** [push(7)] and [size()] on queues of capacity 1: the classes of
    enqueue.h and queue.h return 1 for the size; with the class of queue.cpp
    the program does not exist. *)
Lemma three_classes_agree_witness :
  is_size_t 1 /\
  observations
    (run (enqueue.api Z 3) [call_push 7; call_size]
       (World (enqueue.new Z 3 1) 0 0)).1
  = [Returned VVoid 0 0; Returned (VSize 1) 0 0] /\
  observations
    (run (queue_h.api Z 0) [call_push 7; call_size]
       (World (queue_h.new Z 0 1) 0 0)).1
  = [Returned VVoid 0 0; Returned (VSize 1) 0 0] /\
  run_program queue_cpp_call [call_push 7; call_size]
    (World (queue_cpp.new Z 4 1) 0 0)
  = None.
Proof.
  split; [size_t_range|].
  destruct (three_classes_agree 3 4 0 1 [call_push 7; call_size] 0 0
              ltac:(size_t_range)) as (H1 & _ & H3 & _).
  split; [reflexivity|]. split; [now rewrite H1|]. now apply H3.
Defined.

(** * Further properties of [safe_queue] of enqueue.cpp *)

Section Enqueue_more.
Context {T : Type}.
Implicit Types (q : enqueue.safe_queue T) (w : world T (enqueue.safe_queue T)).

Import enqueue.

Lemma length_contents q :
  invariant q -> length (contents q) = Z.to_nat (current_size q).
Proof.
  intros [Hc Hd Hs Hf Hl Hn]. unfold contents.
  rewrite length_take, length_rotate. lia.
Qed.

Lemma run_reachable (d : T) c cs w :
  reachable (api T d) c w -> reachable (api T d) c (run (api T d) cs w).2.
Proof.
  revert w. induction cs as [|k cs IH]; intros w Hreach; [exact Hreach|].
  rewrite run_cons.
  destruct (exec (api T d) k w) as [v w'|e w'| |] eqn:Hexec; try exact Hreach.
  - specialize (IH w').
    destruct (run (api T d) cs w') as [log w'']. apply IH.
    apply reachable_call with (w := w) (k := k); [exact Hreach|].
    now rewrite Hexec.
  - specialize (IH w').
    destruct (run (api T d) cs w') as [log w'']. apply IH.
    apply reachable_call with (w := w) (k := k); [exact Hreach|].
    now rewrite Hexec.
Qed.

(** In a queue that is neither empty nor full the two cursors are on
    different slots. *)
Lemma last_differs_from_first q :
  invariant q -> 0 < current_size q < maximum_capacity q ->
  Z.to_nat (last q) <> Z.to_nat (first q).
Proof.
  intros Hinv Hmid.
  pose proof (last_is_first_plus_size q Hinv ltac:(lia)) as Hlast.
  destruct Hinv as [Hc Hd Hs Hf Hl Hn].
  specialize (Hf ltac:(lia)). specialize (Hl ltac:(lia)).
  intros Heq. assert (Hsame : last q = first q) by lia.
  rewrite Hsame in Hlast.
  destruct (Z.lt_ge_cases (first q + current_size q) (maximum_capacity q)).
  - rewrite Z.mod_small in Hlast by lia. lia.
  - replace (first q + current_size q)
      with ((first q + current_size q - maximum_capacity q)
            + 1 * maximum_capacity q) in Hlast by lia.
    rewrite Z.mod_add, Z.mod_small in Hlast by lia. lia.
Qed.

(** X1.  After any run of calls on a fresh queue of capacity [c], [size()]
    returns the number of pushes that came back less the number of pops that
    came back; that number lies between 0 and [c]; [empty()] returns true
    exactly when it is 0 and [full()] exactly when it is [c]. *)
Theorem queries_count_the_items (d : T) c cs it t :
  is_size_t c ->
  let r := run (api T d) cs (World (new T d c) it t) in
  let n := Z.of_nat (length (pushes r.1)) - Z.of_nat (length (pops r.1)) in
  0 <= n <= c /\
  size T r.2 = Returns n r.2 /\
  empty T r.2 = Returns (n =? 0) r.2 /\
  full T r.2 = Returns (n =? c) r.2.
Proof.
  intros Hc r n.
  assert (Hreach : reachable (api T d) c r.2).
  { apply run_reachable. now apply reachable_new. }
  destruct (reachable_invariant d c _ Hreach) as [Hinv Hcap].
  destruct (run_conserves_items d cs (World (new T d c) it t)) as [_ Hkeep].
  { now apply invariant_new. }
  fold r in Hkeep. simpl in Hkeep.
  assert (Hn : current_size (this r.2) = n).
  { unfold n. rewrite Hkeep, length_app, length_contents by exact Hinv.
    destruct Hinv as [_ _ Hs _ _ _]. lia. }
  destruct Hinv as [_ _ Hs _ _ _].
  split; [lia|].
  unfold size, empty, full, bind, get, ret. now rewrite Hn, Hcap.
Qed.

(** X3.  In any state whatever and for any timeout, the timed calls do what
    the untimed calls do, but for the wait: where the untimed push returns,
    the timed push returns true and leaves the same state; where the untimed
    push would wait for ever, the timed push throws the push-timeout error
    when the deadline the library computes is reached, which is after the
    timeout (or at once, if it is not positive) when the timeout fits the
    steady clock.  The same holds of the two pops, the timed pop handing the
    item over in [item] instead of returning it. *)
Theorem timed_calls_follow_untimed (x : T) timeout w :
  push_timeout T x timeout w
  = match push T x w with
    | Returns _ w1 => Returns true w1
    | Throws e w1 => Throws e w1
    | Blocks => Throws PushTimeout (park (time_left (now w) timeout) w)
    | Undefined => Undefined
    end /\
  pop_timeout T timeout w
  = match pop T w with
    | Returns y w1 => Returns true (World (this w1) y (now w1))
    | Throws e w1 => Throws e w1
    | Blocks => Throws PopTimeout (park (time_left (now w) timeout) w)
    | Undefined => Undefined
    end /\
  (fits_steady_clock (now w) timeout ->
   now (park (time_left (now w) timeout) w) = now w + Z.max 0 timeout).
Proof.
  split_and!; [| |intros Hfits; simpl; now rewrite time_left_fits].
  - unfold push_timeout, push. unfold_thread. simpl.
    repeat (case_match; simpl in *; simplify_eq); reflexivity.
  - unfold pop_timeout, pop. unfold_thread. simpl.
    repeat (case_match; simpl in *; simplify_eq); reflexivity.
Qed.

(** X6.  On a reachable queue that is neither empty nor full, a push and a
    pop can be made in either order: both orders return, deliver the same
    item and leave the same state. *)
Theorem push_and_pop_commute (d : T) c w (x : T) :
  reachable (api T d) c w ->
  0 < current_size (this w) < maximum_capacity (this w) ->
  exists y w1 w1' w2,
    push T x w = Returns tt w1 /\ pop T w1 = Returns y w2 /\
    pop T w = Returns y w1' /\ push T x w1' = Returns tt w2.
Proof.
  intros Hreach Hmid.
  destruct (reachable_invariant d c w Hreach) as [Hinv _].
  pose proof (invariant_enqueued x _ Hinv ltac:(lia)) as Hinv1.
  pose proof (invariant_dequeued _ Hinv ltac:(lia)) as Hinv1'.
  set (w1 := World (enqueued x (this w)) (item w) (now w)).
  set (w1' := World (dequeued (this w)) (item w) (now w)).
  destruct (pop_returns w Hinv ltac:(lia)) as (y & Hy & Hpop).
  destruct (pop_returns w1 Hinv1) as (y1 & Hy1 & Hpop1); [simpl; lia|].
  assert (y1 = y) as ->.
  { simpl in Hy1. rewrite list_lookup_insert_ne in Hy1
      by now apply last_differs_from_first.
    congruence. }
  exists y, w1, w1', (World (dequeued (this w1)) (item w1) (now w1)).
  split_and!.
  - apply push_returns; [exact Hinv|lia].
  - exact Hpop1.
  - exact Hpop.
  - rewrite push_returns; [|exact Hinv1'|simpl; lia].
    unfold w1, w1', enqueued, dequeued. simpl. do 3 f_equal. lia.
Qed.
End Enqueue_more.

Section Fill_and_drain.
Context {T : Type}.
Implicit Types (q : enqueue.safe_queue T) (w : world T (enqueue.safe_queue T)).

Import enqueue.

Lemma exec_pop (d : T) w :
  invariant (this w) -> 0 < current_size (this w) ->
  exists x,
    queue_data (this w) !! Z.to_nat (first (this w)) = Some x /\
    exec (api T d) call_pop w
    = Returns (VItem x) (World (dequeued (this w)) (item w) (now w)).
Proof.
  intros Hinv Hpos.
  destruct (pop_returns w Hinv Hpos) as (x & Hx & Hpop).
  exists x. split; [exact Hx|]. simpl. unfold bind. now rewrite Hpop.
Qed.

(** As many pops as the queue holds items deliver them oldest first. *)
Lemma run_pops (d : T) ys w :
  invariant (this w) -> contents (this w) = ys ->
  observations (run (api T d) (replicate (length ys) call_pop) w).1
  = map (fun y => Returned (VItem y) (item w) (now w)) ys /\
  current_size (this (run (api T d) (replicate (length ys) call_pop) w).2) = 0.
Proof.
  revert w. induction ys as [|y ys IH]; intros w Hinv Hys.
  - simpl. split; [reflexivity|].
    pose proof (length_contents _ Hinv) as Hlen. rewrite Hys in Hlen.
    destruct Hinv as [_ _ Hs _ _ _]. simpl in Hlen. lia.
  - assert (Hpos : 0 < current_size (this w)).
    { pose proof (length_contents _ Hinv) as Hlen. rewrite Hys in Hlen.
      simpl in Hlen. lia. }
    destruct (exec_pop d w Hinv Hpos) as (x & Hx & Hexec).
    pose proof (contents_dequeued x _ Hinv Hpos Hx) as Hcons.
    rewrite Hys in Hcons. injection Hcons as -> Hrest.
    simpl replicate. rewrite run_cons, Hexec.
    specialize (IH (World (dequeued (this w)) (item w) (now w))
                  (invariant_dequeued _ Hinv Hpos) (eq_sym Hrest)).
    destruct (run (api T d) (replicate (length ys) call_pop) _) as [log w''].
    simpl in *. destruct IH as [IH1 IH2]. split; [|exact IH2].
    unfold observations in *. simpl. now rewrite IH1.
Qed.

Lemma run_pushes_then_pops (d : T) xs ys w :
  invariant (this w) -> contents (this w) = ys ->
  current_size (this w) + Z.of_nat (length xs) <= maximum_capacity (this w) ->
  let r := run (api T d)
             (map call_push xs ++ replicate (length ys + length xs) call_pop) w in
  observations r.1
  = replicate (length xs) (Returned VVoid (item w) (now w))
    ++ map (fun y => Returned (VItem y) (item w) (now w)) (ys ++ xs) /\
  current_size (this r.2) = 0.
Proof.
  revert ys w. induction xs as [|x xs IH]; intros ys w Hinv Hys Hroom.
  - simpl. rewrite Nat.add_0_r, app_nil_r. now apply run_pops.
  - simpl map. simpl app. simpl length in *. intros r. unfold r. clear r.
    rewrite run_cons, exec_push by (auto; lia).
    specialize (IH (ys ++ [x]) (World (enqueued x (this w)) (item w) (now w))
                  (invariant_enqueued x _ Hinv ltac:(lia))).
    simpl in IH. rewrite contents_enqueued, Hys in IH by (auto; lia).
    specialize (IH eq_refl ltac:(lia)).
    rewrite length_app in IH. simpl length in IH.
    replace (length ys + 1 + length xs)%nat with (length ys + S (length xs))%nat
      in IH by lia.
    destruct (run (api T d) _ _) as [log w''].
    simpl in *. destruct IH as [IH1 IH2]. split; [|exact IH2].
    unfold observations in *. simpl. rewrite IH1, <- app_assoc. reflexivity.
Qed.

(** X4.  For every capacity [c] and every list of at most [c] items,
    pushing the items on a fresh queue and then popping as many times gives
    the items back in the order they were pushed; no call waits, throws or
    changes [item] or the clock, and [empty()] then returns true. *)
Theorem fill_then_drain_round_trip (d : T) c xs it t :
  is_size_t c ->
  Z.of_nat (length xs) <= c ->
  let r := run (api T d) (map call_push xs ++ replicate (length xs) call_pop)
             (World (new T d c) it t) in
  observations r.1
  = replicate (length xs) (Returned VVoid it t)
    ++ map (fun x => Returned (VItem x) it t) xs /\
  empty T r.2 = Returns true r.2.
Proof.
  intros Hc Hlen.
  destruct (run_pushes_then_pops d xs [] (World (new T d c) it t))
    as [Hobs Hsize].
  { now apply invariant_new. }
  { reflexivity. }
  { simpl. lia. }
  simpl in Hobs, Hsize. simpl. split; [exact Hobs|].
  unfold empty, bind, get, ret. now rewrite Hsize.
Qed.
End Fill_and_drain.

(** * The loop of main.cpp that empties the queue *)

Section Drain_loop.
Import enqueue.

Lemma pop_while_not_empty_invariant fuel (w : world Z (safe_queue Z)) :
  invariant (this w) ->
  (Z.to_nat (current_size (this w)) < fuel)%nat ->
  exists w',
    main_cpp.pop_while_not_empty fuel w
    = (main_cpp.popped_lines (contents (this w)), Some (Returns tt w')) /\
    current_size (this w') = 0 /\
    maximum_capacity (this w') = maximum_capacity (this w) /\
    item w' = item w /\ now w' = now w.
Proof.
  revert w. induction fuel as [|fuel IH]; intros w Hinv Hfuel; [lia|].
  destruct (Z.lt_ge_cases 0 (current_size (this w))) as [Hpos|Hzero].
  - destruct (pop_returns w Hinv Hpos) as (x & Hx & Hpop).
    pose proof (contents_dequeued x _ Hinv Hpos Hx) as Hcons.
    pose proof (invariant_dequeued _ Hinv Hpos) as Hinv1.
    destruct (IH (World (dequeued (this w)) (item w) (now w)) Hinv1)
      as (w' & Hloop & Hsize & Hcap & Hitem & Hnow); [simpl; lia|].
    exists w'. split; [|auto].
    simpl main_cpp.pop_while_not_empty.
    unfold and_then at 1. unfold on_queue at 1.
    unfold empty at 1. unfold bind, get, ret.
    destruct (Z.eqb_spec (current_size (this w)) 0) as [|_]; [lia|].
    cbn [negb]. cbv beta iota.
    unfold and_then at 1. unfold on_queue at 1. cbv beta. rewrite Hpop.
    cbv beta iota.
    unfold and_then at 1. unfold on_queue at 1.
    unfold size at 1. unfold bind, get, ret. cbv beta iota.
    unfold and_then at 1. unfold cout_line at 1. cbv beta iota.
    rewrite Hloop, Hcons. cbn [main_cpp.popped_lines app this current_size dequeued].
    rewrite (length_contents _ Hinv1). cbn [current_size dequeued].
    destruct Hinv as [_ _ Hs _ _ _]. rewrite Z2Nat.id by lia. reflexivity.
  - exists w.
    assert (Hsize : current_size (this w) = 0).
    { destruct Hinv as [_ _ Hs _ _ _]. lia. }
    split; [|auto].
    simpl main_cpp.pop_while_not_empty.
    unfold and_then, on_queue, empty, bind, get, ret, finish.
    rewrite Hsize. simpl. unfold contents. now rewrite Hsize.
Qed.

(** X5.  From every reachable state of a [safe_queue<int>] the loop
    [while (!myQueue.empty()) { pop; print }] of main.cpp ends after one
    round per item held: it never waits, writes one line per item, oldest
    first, with the count going down to 0, and leaves the queue empty. *)
Theorem drain_loop_empties_queue (d : Z) c fuel (w : world Z (safe_queue Z)) :
  reachable (api Z d) c w ->
  (Z.to_nat (current_size (this w)) < fuel)%nat ->
  exists w',
    main_cpp.pop_while_not_empty fuel w
    = (main_cpp.popped_lines (contents (this w)), Some (Returns tt w')) /\
    current_size (this w') = 0 /\
    maximum_capacity (this w') = maximum_capacity (this w) /\
    item w' = item w /\ now w' = now w.
Proof.
  intros Hreach Hfuel.
  destruct (reachable_invariant d c w Hreach) as [Hinv _].
  now apply pop_while_not_empty_invariant.
Qed.
End Drain_loop.

(** * Further properties: queries against calls, and unbounded use *)

Section Enqueue_use.
Context {T : Type}.
Implicit Types (q : enqueue.safe_queue T) (w : world T (enqueue.safe_queue T)).

Import enqueue.

(** X8.  In every reachable state [full()] tells whether a push can go
    through and [empty()] whether a pop can: [full()] returns true exactly
    when the untimed push would wait for ever, which is exactly when the
    timed push throws; [empty()] returns true exactly when the untimed pop
    would wait for ever, which is exactly when the timed pop throws. *)
Theorem queries_predict_calls (d : T) c w (x : T) timeout :
  reachable (api T d) c w ->
  (full T w = Returns true w <-> push T x w = Blocks) /\
  (full T w = Returns true w <->
     push_timeout T x timeout w
     = Throws PushTimeout (park (time_left (now w) timeout) w)) /\
  (empty T w = Returns true w <-> pop T w = Blocks) /\
  (empty T w = Returns true w <->
     pop_timeout T timeout w
     = Throws PopTimeout (park (time_left (now w) timeout) w)).
Proof.
  intros Hreach.
  destruct (reachable_invariant d c w Hreach) as [Hinv _].
  assert (Hs : 0 <= current_size (this w) <= maximum_capacity (this w))
    by now destruct Hinv.
  assert (Hfull : full T w = Returns true w
                  <-> maximum_capacity (this w) <= current_size (this w)).
  { unfold full, bind, get, ret.
    destruct (Z.eqb_spec (current_size (this w)) (maximum_capacity (this w)));
      split; intros H; try lia; try reflexivity; congruence. }
  assert (Hempty : empty T w = Returns true w <-> current_size (this w) <= 0).
  { unfold empty, bind, get, ret.
    destruct (Z.eqb_spec (current_size (this w)) 0);
      split; intros H; try lia; try reflexivity; congruence. }
  split_and!.
  - rewrite Hfull. split; [apply push_blocks|].
    intros Hb.
    destruct (Z.lt_ge_cases (current_size (this w)) (maximum_capacity (this w)));
      [|assumption].
    rewrite push_returns in Hb by assumption. discriminate Hb.
  - rewrite Hfull. split; [apply push_timeout_throws|].
    intros Hb.
    destruct (Z.lt_ge_cases (current_size (this w)) (maximum_capacity (this w)));
      [|assumption].
    rewrite push_timeout_returns in Hb by assumption. discriminate Hb.
  - rewrite Hempty. split; [apply pop_blocks|].
    intros Hb.
    destruct (Z.lt_ge_cases 0 (current_size (this w))); [|assumption].
    destruct (pop_returns w Hinv) as (y & _ & Hpop); [assumption|].
    rewrite Hpop in Hb. discriminate Hb.
  - rewrite Hempty. split; [apply pop_timeout_throws|].
    intros Hb.
    destruct (Z.lt_ge_cases 0 (current_size (this w))); [|assumption].
    destruct (pop_timeout_returns timeout w Hinv) as (y & _ & Hpop);
      [assumption|].
    rewrite Hpop in Hb. discriminate Hb.
Qed.

Lemma run_push_pop_pairs (d : T) xs w :
  invariant (this w) -> current_size (this w) = 0 ->
  0 < maximum_capacity (this w) ->
  let r := run (api T d) (xs ≫= fun x => [call_push x; call_pop]) w in
  observations r.1
  = (xs ≫= fun x => [Returned VVoid (item w) (now w);
                     Returned (VItem x) (item w) (now w)]) /\
  current_size (this r.2) = 0.
Proof.
  revert w. induction xs as [|x xs IH]; intros w Hinv Hzero Hpos; [now split|].
  pose proof (invariant_enqueued x _ Hinv ltac:(lia)) as Hinv1.
  set (w1 := World (enqueued x (this w)) (item w) (now w)).
  destruct (exec_pop d w1 Hinv1) as (y & Hy & Hexec); [simpl; lia|].
  assert (y = x) as ->.
  { pose proof (last_is_first_plus_size _ Hinv Hpos) as Hlast.
    destruct Hinv as [Hc Hd Hs Hf Hl Hn].
    rewrite Hzero, Z.add_0_r, Z.mod_small in Hlast by auto.
    simpl in Hy. rewrite Hlast, list_lookup_insert_eq in Hy by lia.
    congruence. }
  pose proof (invariant_dequeued _ Hinv1 ltac:(simpl; lia)) as Hinv2.
  specialize (IH (World (dequeued (this w1)) (item w1) (now w1)) Hinv2).
  simpl in IH. specialize (IH ltac:(lia) Hpos).
  intros r. unfold r. clear r.
  change ((x :: xs) ≫= fun x => [call_push x; call_pop])
    with (call_push x :: call_pop :: (xs ≫= fun x => [call_push x; call_pop])).
  rewrite run_cons, exec_push by (auto; lia).
  fold w1. rewrite run_cons, Hexec.
  destruct (run (api T d) _ _) as [log w''].
  simpl in *. destruct IH as [IH1 IH2]. split; [|exact IH2].
  unfold observations in *. simpl. now rewrite IH1.
Qed.

(** X9.  A queue of any capacity of at least 1 carries any number of items:
    pushing and popping item after item on a fresh queue, every push returns
    and every pop returns the item just pushed, however long the list; the
    cursors wrap and no call ever waits. *)
Theorem any_number_of_items_pass_through (d : T) c xs it t :
  is_size_t c -> 0 < c ->
  let r := run (api T d) (xs ≫= fun x => [call_push x; call_pop])
             (World (new T d c) it t) in
  observations r.1
  = (xs ≫= fun x => [Returned VVoid it t; Returned (VItem x) it t]) /\
  empty T r.2 = Returns true r.2.
Proof.
  intros Hc Hpos.
  destruct (run_push_pop_pairs d xs (World (new T d c) it t)) as [Hobs Hsize].
  { now apply invariant_new. }
  { reflexivity. }
  { exact Hpos. }
  simpl in Hobs, Hsize. simpl. split; [exact Hobs|].
  unfold empty, bind, get, ret. now rewrite Hsize.
Qed.

Lemma run_never_undefined (d : T) cs w :
  invariant (this w) ->
  Forall (fun e => e.2 <> Undefined) (run (api T d) cs w).1.
Proof.
  revert w. induction cs as [|k cs IH]; intros w Hinv; [constructor|].
  rewrite run_cons.
  pose proof (exec_step d k w Hinv) as Hstep.
  pose proof (fun u => step_invariant _ _ _ u Hstep Hinv) as Hkeep.
  destruct (exec (api T d) k w) as [v w'|e w'| |] eqn:Hexec.
  - specialize (IH w' (Hkeep _ eq_refl)).
    destruct (run (api T d) cs w') as [log w'']. now constructor.
  - specialize (IH w' (Hkeep _ eq_refl)).
    destruct (run (api T d) cs w') as [log w'']. now constructor.
  - now repeat constructor.
  - inversion Hstep.
Qed.
End Enqueue_use.

(** * FIFO order and safety of the classes of queue.cpp and queue.h *)

Section Renamed_class.
Context {T Q : Type} (f : Q -> enqueue.safe_queue T) (d : T).

Lemma run_log_commutes (a : queue_api T Q)
    (Hexec : forall k w,
       outcome_map f (exec a k w) = exec (enqueue.api T d) k (world_map f w))
    cs (w : world T Q) :
  run (enqueue.api T d) cs (world_map f w)
  = (map (renamed_entry f) (run a cs w).1, world_map f (run a cs w).2).
Proof.
  revert w. induction cs as [|k cs IH]; intros w; [reflexivity|].
  simpl. rewrite <- Hexec.
  destruct (exec a k w) as [v w'|e w'| |]; simpl; try reflexivity.
  - rewrite IH. now destruct (run a cs w').
  - rewrite IH. now destruct (run a cs w').
Qed.

Lemma pushes_renamed (log : list (call T * outcome T Q (value T))) :
  pushes (map (renamed_entry f) log) = pushes log.
Proof.
  induction log as [|[k o] log IH]; [reflexivity|].
  unfold pushes in *.
  destruct k, o; simpl; first [exact IH | f_equal; exact IH].
Qed.

Lemma pops_renamed (log : list (call T * outcome T Q (value T))) :
  pops (map (renamed_entry f) log) = pops log.
Proof.
  induction log as [|[k o] log IH]; [reflexivity|].
  unfold pops in *.
  destruct k, o as [[]| | |]; simpl; first [exact IH | f_equal; exact IH].
Qed.

Lemma renamed_log_fifo_and_safe cs (w : world T Q)
    (log : list (call T * outcome T Q (value T))) w' :
  run (enqueue.api T d) cs (world_map f w) = (map (renamed_entry f) log, w') ->
  invariant (this (world_map f w)) ->
  contents (this (world_map f w)) = [] ->
  (forall n x, pops log !! n = Some x -> pushes log !! n = Some x) /\
  Forall (fun e => e.2 <> Undefined) log.
Proof.
  intros Hrun Hinv Hnil.
  destruct (run_conserves_items d cs (world_map f w) Hinv) as [_ Hkeep].
  pose proof (run_never_undefined d cs (world_map f w) Hinv) as Hsafe.
  rewrite Hnil in Hkeep.
  rewrite Hrun in Hkeep, Hsafe. simpl in Hkeep, Hsafe.
  rewrite pushes_renamed, pops_renamed in Hkeep.
  split.
  - intros n x Hn. rewrite Hkeep. now apply lookup_app_l_Some.
  - rewrite Forall_map in Hsafe.
    eapply Forall_impl; [exact Hsafe|].
    intros [k o] Ho. simpl in *. now destruct o.
Qed.
End Renamed_class.

Section Other_classes.
Context {T : Type}.

(** X7.  [safe_queue] of queue.cpp and [ThreadSafeQueue] of queue.h are
    first-in first-out and free of undefined behaviour by themselves: in
    every run of calls on a fresh [ThreadSafeQueue], and in every run of
    pushes and pops on a fresh [safe_queue] of queue.cpp (whose [size],
    [empty] and [full] no program can call), the n-th pop that comes back
    delivers the item of the n-th push that came back, and no call divides
    by zero or indexes outside the buffer. *)
Theorem other_classes_fifo_and_safe (default_init value_init : T) c cs it t :
  is_size_t c ->
  let program2 := run_program queue_cpp_call cs
                    (World (queue_cpp.new T default_init c) it t) in
  let r3 := run (queue_h.api T value_init) cs
              (World (queue_h.new T value_init c) it t) in
  (existsb is_query cs = false -> is_Some program2) /\
  (forall r2, program2 = Some r2 ->
     (forall n x, pops r2.1 !! n = Some x -> pushes r2.1 !! n = Some x) /\
     Forall (fun e => e.2 <> Undefined) r2.1) /\
  (forall n x, pops r3.1 !! n = Some x -> pushes r3.1 !! n = Some x) /\
  Forall (fun e => e.2 <> Undefined) r3.1.
Proof.
  intros Hc program2 r3.
  destruct (renamed_log_fifo_and_safe of_queue_h value_init cs
              (World (queue_h.new T value_init c) it t) r3.1
              (world_map of_queue_h r3.2)) as [H3 H4].
  { rewrite (run_log_commutes of_queue_h value_init (queue_h.api T value_init)
               (exec_commutes of_queue_h (queue_h.api T value_init)
                  (enqueue.api T value_init) h_size h_empty h_full
                  h_push h_push_timeout h_pop h_pop_timeout)).
    reflexivity. }
  { now apply invariant_new. }
  { reflexivity. }
  split_and!; [| |exact H3|exact H4].
  - intros Hq. unfold program2, run_program.
    rewrite compiles_queue_cpp, Hq. simpl.
    apply run_members_is_Some. now rewrite compiles_queue_cpp, Hq.
  - intros r2 Hr2. unfold program2, run_program in Hr2.
    destruct (compiles queue_cpp_call cs); [|discriminate Hr2].
    apply (renamed_log_fifo_and_safe of_queue_cpp default_init cs
             (World (queue_cpp.new T default_init c) it t) r2.1
             (world_map of_queue_cpp r2.2)).
    + now apply run_members_queue_cpp.
    + now apply invariant_new.
    + reflexivity.
Qed.
End Other_classes.

(** * The demo of main.cpp, whatever uninitialised memory holds *)

(** X10.  Whatever the slots of the fresh buffer and the uninitialised
    variable [val] hold, [main] reaches the start of its producer-consumer
    demo without waiting for ever: it has then written the same 26 lines,
    the queue is empty with both cursors back on slot 0, and the clock has
    moved by the two timed waits, 100 ms each where the clock has room for
    them. *)
Theorem main_reaches_the_threads (d it t : Z) (fuel : nat) :
  (6 <= fuel)%nat ->
  main_cpp.main_until_threads fuel (World (enqueue.new Z d 5) it t)
  = (main_cpp.console_before_threads,
     Some (Returns tt
             (World (enqueue.Build_safe_queue Z [1; 2; 3; 4; 5] 5 0 0 0)
                it (t + time_left t 100
                    + time_left (t + time_left t 100) 100)))) /\
  (fits_steady_clock t 200 ->
   t + time_left t 100 + time_left (t + time_left t 100) 100 = t + 100 + 100).
Proof.
  intros Hfuel. split.
  - do 6 (destruct fuel as [|fuel]; [lia|]).
    lazy -[time_left Z.add]. reflexivity.
  - intros (Hnow & Htimeout & Hsum).
    rewrite (time_left_fits t 100) by (unfold fits_steady_clock; lia).
    change (Z.max 0 100) with 100.
    rewrite (time_left_fits (t + 100) 100) by (unfold fits_steady_clock; lia).
    reflexivity.
Qed.

(** * The further properties at work on queues of [int] *)

(** [push(7)], [push(8)] and [pop()] on a fresh queue of capacity 3. *)
Lemma reachable_one_of_three :
  reachable (enqueue.api Z 0) 3 one_of_three.
Proof.
  apply reachable_call
    with (w := World (enqueue.Build_safe_queue Z [7; 8; 0] 3 2 0 2) 0 0)
         (k := call_pop).
  - apply reachable_call
      with (w := World (enqueue.Build_safe_queue Z [7; 0; 0] 3 1 0 1) 0 0)
           (k := call_push 8).
    + apply reachable_call
        with (w := World (enqueue.new Z 0 3) 0 0) (k := call_push 7).
      * apply reachable_new. size_t_range.
      * reflexivity.
    + reflexivity.
  - reflexivity.
Defined.

(** Two pushes, a pop and a timed pop on a queue of capacity 2. *)
Lemma queries_count_the_items_witness :
  is_size_t 2 /\
  let r := run (enqueue.api Z 0)
             [call_push 7; call_push 8; call_pop; call_pop_timeout 5;
              call_pop_timeout 5]
             (World (enqueue.new Z 0 2) 0 0) in
  enqueue.size Z r.2 = Returns 0 r.2 /\
  enqueue.empty Z r.2 = Returns true r.2.
Proof.
  split; [size_t_range|]. intros r.
  destruct (queries_count_the_items 0 2
              [call_push 7; call_push 8; call_pop; call_pop_timeout 5;
               call_pop_timeout 5] 0 0 ltac:(size_t_range))
    as (_ & H2 & H3 & _).
  split; [exact H2|exact H3].
Defined.

(** Three items through a queue of capacity 5. *)
Lemma fill_then_drain_round_trip_witness :
  is_size_t 5 /\
  Z.of_nat (length [4; 5; 6]) <= 5 /\
  observations
    (run (enqueue.api Z 0)
       [call_push 4; call_push 5; call_push 6; call_pop; call_pop; call_pop]
       (World (enqueue.new Z 0 5) 0 0)).1
  = [Returned VVoid 0 0; Returned VVoid 0 0; Returned VVoid 0 0;
     Returned (VItem 4) 0 0; Returned (VItem 5) 0 0; Returned (VItem 6) 0 0].
Proof.
  split; [size_t_range|]. split; [simpl; lia|].
  destruct (fill_then_drain_round_trip 0 5 [4; 5; 6] 0 0 ltac:(size_t_range)
              ltac:(simpl; lia)) as [H1 _].
  exact H1.
Defined.

(** The loop on the queue that holds 8 in slot 1. *)
Lemma drain_loop_empties_queue_witness :
  reachable (enqueue.api Z 0) 3 one_of_three /\
  (Z.to_nat (enqueue.current_size (this one_of_three)) < 2)%nat /\
  exists w',
    main_cpp.pop_while_not_empty 2 one_of_three
    = (main_cpp.popped_lines (contents (this one_of_three)),
       Some (Returns tt w')) /\
    enqueue.current_size (this w') = 0.
Proof.
  split; [exact reachable_one_of_three|]. split; [simpl; lia|].
  destruct (drain_loop_empties_queue 0 3 2 one_of_three reachable_one_of_three
              ltac:(simpl; lia)) as (w' & H1 & H2 & _).
  exists w'. split; [exact H1|exact H2].
Defined.

(** A push of 9 and a pop on the queue that holds 8, in either order. *)
Lemma push_and_pop_commute_witness :
  reachable (enqueue.api Z 0) 3 one_of_three /\
  0 < enqueue.current_size (this one_of_three)
    < enqueue.maximum_capacity (this one_of_three) /\
  exists y w1 w1' w2,
    enqueue.push Z 9 one_of_three = Returns tt w1 /\
    enqueue.pop Z w1 = Returns y w2 /\
    enqueue.pop Z one_of_three = Returns y w1' /\
    enqueue.push Z 9 w1' = Returns tt w2.
Proof.
  split; [exact reachable_one_of_three|]. split; [simpl; lia|].
  apply (push_and_pop_commute 0 3 one_of_three 9 reachable_one_of_three).
  simpl. lia.
Defined.

(** Pushes and pops on the queues of queue.cpp and queue.h, capacity 1. *)
Lemma other_classes_fifo_and_safe_witness :
  is_size_t 1 /\
  let cs := [call_push 7; call_push_timeout 8 5; call_pop;
             call_pop_timeout 5; call_pop] in
  is_Some (run_program queue_cpp_call cs (World (queue_cpp.new Z 4 1) 0 0)) /\
  Forall (fun e => e.2 <> Undefined)
    (run (queue_h.api Z 0) cs (World (queue_h.new Z 0 1) 0 0)).1.
Proof.
  split; [size_t_range|]. intros cs.
  destruct (other_classes_fifo_and_safe 4 0 1 cs 0 0 ltac:(size_t_range))
    as (H1 & _ & _ & H4).
  split; [now apply H1|exact H4].
Defined.

(** The full queue of capacity 1: [full()] is true and a push cannot go
    through. *)
Lemma queries_predict_calls_witness :
  reachable (enqueue.api Z 0) 1 full_single /\
  (enqueue.full Z full_single = Returns true full_single
   <-> enqueue.push Z 8 full_single = Blocks).
Proof.
  split; [exact reachable_full_single|].
  destruct (queries_predict_calls 0 1 full_single 8 50 reachable_full_single)
    as (H1 & _).
  exact H1.
Defined.

(** Four items through a queue of capacity 1. *)
Lemma any_number_of_items_pass_through_witness :
  is_size_t 1 /\ 0 < 1 /\
  observations
    (run (enqueue.api Z 0)
       [call_push 1; call_pop; call_push 2; call_pop; call_push 3; call_pop;
        call_push 4; call_pop]
       (World (enqueue.new Z 0 1) 0 0)).1
  = [Returned VVoid 0 0; Returned (VItem 1) 0 0;
     Returned VVoid 0 0; Returned (VItem 2) 0 0;
     Returned VVoid 0 0; Returned (VItem 3) 0 0;
     Returned VVoid 0 0; Returned (VItem 4) 0 0].
Proof.
  split; [size_t_range|]. split; [lia|].
  destruct (any_number_of_items_pass_through 0 1 [1; 2; 3; 4] 0 0
              ltac:(size_t_range) ltac:(lia)) as [H1 _].
  exact H1.
Defined.

(** [main] with fuel for eight rounds of its loop. *)
Lemma main_reaches_the_threads_witness :
  (6 <= 8)%nat /\
  main_cpp.main_until_threads 8 (World (enqueue.new Z 0 5) 0 0)
  = (main_cpp.console_before_threads,
     Some (Returns tt
             (World (enqueue.Build_safe_queue Z [1; 2; 3; 4; 5] 5 0 0 0)
                0 200))).
Proof.
  split; [lia|].
  destruct (main_reaches_the_threads 0 0 0 8 ltac:(lia)) as [H _].
  rewrite H. reflexivity.
Defined.
